(** * UPSVAC Flight Finder: the routing core of [FlightFinder.py]

    A shallow embedding of [RouteGraph], [fewest_legs], [least_distance]
    and [unique_list], and the properties of the routing engine proved
    about them.

    Conventions.
    - Python [str] is [string] (its UTF-8 bytes: bytewise lexicographic
      order is code-point order), Python [int] is [Z].
    - [RouteGraph.graph] is a [defaultdict(list)]: a finite map from
      departure codes to lists of edges, where reading a missing key
      stores an empty list under it.  It is threaded through the searches
      as explicit state.
    - A [while] loop is a [Fixpoint] over a fuel argument; [None] at the
      outermost level means that the fuel ran out, never a Python value. *)

From Stdlib Require Import ZArith Lia.
From stdpp Require Import gmap strings list fin_maps sorting.

Local Open Scope Z_scope.

(** ** Data model *)

(** One element of an adjacency list: the dictionary
    [{"dest": .., "aircraft": .., "distance": ..}] built by [add_route]. *)
Record Edge : Type := mkEdge {
  dest : string;
  aircraft : string;
  distance : Z
}.

#[global] Instance Edge_eq_dec : EqDecision Edge.
Proof. solve_decision. Defined.

(** A parsed route, the dictionary with keys [Departure], [Destination],
    [Aircraft] and [Distance] produced by [parse_routes_from_string]. *)
Record Route : Type := mkRoute {
  Departure : string;
  Destination : string;
  Aircraft : string;
  Distance : Z
}.

#[global] Instance Route_eq_dec : EqDecision Route.
Proof. solve_decision. Defined.

(** The attribute [RouteGraph.graph]. *)
Abbreviation Graph := (gmap string (list Edge)).

(** A path is the list of airport codes carried by the frontier entries. *)
Abbreviation Path := (list string).

Module RouteGraph.

(** [RouteGraph.__init__]: [self.graph = defaultdict(list)]. *)
Definition init : Graph := ∅.

(** [graph.graph[k]] on a [defaultdict(list)]: the stored list, or a
    fresh empty list that is stored under [k] first. *)
Definition getitem (g : Graph) (k : string) : list Edge * Graph :=
  match g !! k with
  | Some l => (l, g)
  | None => ([], <[k := []]> g)
  end.

(** [RouteGraph.add_route]:
    [self.graph[dep].append({"dest": .., "aircraft": .., "distance": ..})].
    The list object read by [getitem] is the one stored in the map, so
    the append is a store under [dep]. *)
Definition add_route (g : Graph) (dep dst ac : string) (dist : Z) : Graph :=
  let '(l, g1) := getitem g dep in
  <[dep := l ++ [mkEdge dst ac dist]]> g1.

(** The loop of [RouteFinderApp.load_routes] that fills the graph:
    [for r in self.routes: self.graph.add_route(r["Departure"], ...)]. *)
Definition add_routes (g : Graph) (routes : list Route) : Graph :=
  foldl (fun g r => add_route g (Departure r) (Destination r) (Aircraft r) (Distance r))
        g routes.

Definition build (routes : list Route) : Graph := add_routes init routes.

(** What a read of key [k] observes: the stored list, empty when absent. *)
Definition edges_of (g : Graph) (k : string) : list Edge :=
  default [] (g !! k).

End RouteGraph.

Import RouteGraph.

Definition edge_of_route (r : Route) : Edge :=
  mkEdge (Destination r) (Aircraft r) (Distance r).

(** The records of departure [d], in input order. *)
Definition routes_from (d : string) (routes : list Route) : list Route :=
  filter (fun r => Departure r = d) routes.

(** ** Loops

    A [while] loop whose body either continues with a new state or
    returns: [while body fuel st] runs at most [fuel] iterations. *)
Section While.
Context {St R : Type} (body : St → St + R).

Fixpoint while (fuel : nat) (st : St) : option R :=
  match fuel with
  | O => None
  | S fuel' =>
      match body st with
      | inl st' => while fuel' st'
      | inr r => Some r
      end
  end.
End While.

(** ** [fewest_legs]: breadth-first search *)

(** The [for edge in graph.graph[airport]] loop of [fewest_legs]:
    edges of another aircraft are skipped, the others append
    [(nxt, path + [nxt])] to the queue. *)
Definition bfs_expand (ac : string) (path : Path) (edges : list Edge)
    (queue : list (string * Path)) : list (string * Path) :=
  foldl (fun q edge =>
           if decide (aircraft edge ≠ ac) then q
           else let nxt := dest edge in q ++ [(nxt, path ++ [nxt])])
        queue edges.

(** The state of the loop: the graph, [queue] and [visited]. *)
Abbreviation BfsState := (Graph * list (string * Path) * gset string)%type.

(** One iteration of [while queue:].  An empty queue leaves the loop and
    reaches [return None]. *)
Definition fewest_legs_body (end_ ac : string) (st : BfsState)
    : BfsState + (option Path * Graph) :=
  let '(g, queue, visited) := st in
  match queue with
  | [] => inr (None, g)
  | (airport, path) :: queue =>
      if decide (airport = end_) then inr (Some path, g)
      else if decide (airport ∈ visited) then inl (g, queue, visited)
      else
        let visited := {[airport]} ∪ visited in
        let '(edges, g) := getitem g airport in
        inl (g, bfs_expand ac path edges queue, visited)
  end.

(** [fewest_legs(graph, start, end, aircraft)]: the returned value
    ([None] or the path) and the graph as the call leaves it. *)
Definition fewest_legs (fuel : nat) (g : Graph) (start end_ ac : string)
    : option (option Path * Graph) :=
  while (fewest_legs_body end_ ac) fuel (g, [(start, [start])], ∅).

(** ** [least_distance]: uniform-cost search *)

(** A priority-queue element [(total_distance, number_of_hops, airport, path)]. *)
Abbreviation Entry := (Z * Z * string * Path)%type.

(** Python's [<] on lists of strings: lexicographic. *)
Fixpoint path_compare (p q : Path) : comparison :=
  match p, q with
  | [], [] => Eq
  | [], _ :: _ => Lt
  | _ :: _, [] => Gt
  | x :: p', y :: q' =>
      match String.compare x y with
      | Eq => path_compare p' q'
      | c => c
      end
  end.

(** Python's order on the tuples: the first component that differs decides. *)
Definition entry_compare (x y : Entry) : comparison :=
  let '(d1, h1, a1, p1) := x in
  let '(d2, h2, a2, p2) := y in
  match d1 ?= d2 with
  | Eq => match h1 ?= h2 with
          | Eq => match String.compare a1 a2 with
                  | Eq => path_compare p1 p2
                  | c => c
                  end
          | c => c
          end
  | c => c
  end.

Definition entry_ltb (x y : Entry) : bool :=
  match entry_compare x y with Lt => true | _ => false end.

(** The two operations of Python's [heapq] that [least_distance] uses,
    by their contract: the heap is a bag of entries, [heappush] adds one,
    [heappop] removes and returns the least one for [<].  That order is
    total on entries and equal entries are the same value, so the entry
    popped does not depend on how the heap arranges its list. *)
Module heapq.

Definition heappush (heap : list Entry) (item : Entry) : list Entry :=
  item :: heap.

(** [pop_min x l]: the least entry of [x :: l], and the others. *)
Fixpoint pop_min (x : Entry) (l : list Entry) : Entry * list Entry :=
  match l with
  | [] => (x, [])
  | y :: l' =>
      if entry_ltb y x
      then let '(m, r) := pop_min y l' in (m, x :: r)
      else let '(m, r) := pop_min x l' in (m, y :: r)
  end.

Definition heappop (heap : list Entry) : option (Entry * list Entry) :=
  match heap with
  | [] => None
  | x :: l => Some (pop_min x l)
  end.

End heapq.

(** The pruning test of [least_distance]: the two [continue]s under
    [if airport in visited]. *)
Definition ld_skip (visited : gmap string (Z * Z)) (airport : string)
    (dist hops : Z) : bool :=
  match visited !! airport with
  | Some (best_dist, best_hops) =>
      if decide (dist > best_dist) then true
      else if decide (dist = best_dist ∧ hops >= best_hops) then true
      else false
  | None => false
  end.

(** The [for edge in graph.graph[airport]] loop of [least_distance]. *)
Definition ld_expand (ac : string) (dist hops : Z) (path : Path)
    (edges : list Edge) (pq : list Entry) : list Entry :=
  foldl (fun pq edge =>
           if decide (aircraft edge ≠ ac) then pq
           else
             let nxt := dest edge in
             let new_dist := dist + distance edge in
             let new_hops := hops + 1 in
             heapq.heappush pq (new_dist, new_hops, nxt, path ++ [nxt]))
        pq edges.

Abbreviation LdState := (Graph * list Entry * gmap string (Z * Z))%type.

(** One iteration of [while pq:]. *)
Definition least_distance_body (end_ ac : string) (st : LdState)
    : LdState + (option (Z * Path) * Graph) :=
  let '(g, pq, visited) := st in
  match heapq.heappop pq with
  | None => inr (None, g)
  | Some ((dist, hops, airport, path), pq) =>
      if decide (airport = end_) then inr (Some (dist, path), g)
      else if ld_skip visited airport dist hops then inl (g, pq, visited)
      else
        let visited := <[airport := (dist, hops)]> visited in
        let '(edges, g) := getitem g airport in
        inl (g, ld_expand ac dist hops path edges pq, visited)
  end.

Definition least_distance (fuel : nat) (g : Graph) (start end_ ac : string)
    : option (option (Z * Path) * Graph) :=
  while (least_distance_body end_ ac) fuel (g, [(0, 0, start, [start])], ∅).

(** ** [unique_list] *)

Abbreviation RouteKey := (string * string * string * Z)%type.

(** [key = (item["Departure"], item["Destination"], item["Aircraft"], item["Distance"])] *)
Definition route_key (item : Route) : RouteKey :=
  (Departure item, Destination item, Aircraft item, Distance item).

(** One iteration of [for item in items]; the state is [(seen, result)]. *)
Definition unique_list_body (st : gset RouteKey * list Route) (item : Route)
    : gset RouteKey * list Route :=
  let '(seen, result) := st in
  let key := route_key item in
  if decide (key ∉ seen) then
    let seen := {[key]} ∪ seen in
    if decide (Distance item = 0) then (seen, result)
    else (seen, result ++ [item])
  else (seen, result).

Definition unique_list (items : list Route) : list Route :=
  snd (foldl unique_list_body (∅, []) items).

(** ** Routes of a graph

    [adj x] is the adjacency list read under [x]; the searches only see
    the graph through such reads. *)

(** [edge] leaves [x] and is flown by aircraft [ac]. *)
Definition flies (adj : string → list Edge) (ac x : string) (edge : Edge) : Prop :=
  edge ∈ adj x ∧ aircraft edge = ac.

(** [path_edges adj ac p es]: the airports [p] are joined, pair by
    consecutive pair, by the edges [es], all flown by [ac]. *)
Inductive path_edges (adj : string → list Edge) (ac : string)
    : Path → list Edge → Prop :=
| path_edges_one x : path_edges adj ac [x] []
| path_edges_cons x y edge p es :
    flies adj ac x edge → dest edge = y →
    path_edges adj ac (y :: p) es →
    path_edges adj ac (x :: y :: p) (edge :: es).

Definition total_distance (es : list Edge) : Z :=
  foldr (fun edge acc => distance edge + acc) 0 es.

(** A route of [g] from [s] to [e] for aircraft [ac]: its airports and
    its edges. *)
Definition route (g : Graph) (ac s e : string) (p : Path) (es : list Edge) : Prop :=
  head p = Some s ∧ last p = Some e ∧ path_edges (edges_of g) ac p es.

(** [reach adj ac s y D n]: [y] is reached from [s] by [n] edges of
    aircraft [ac] whose distances add up to [D]. *)
Inductive reach (adj : string → list Edge) (ac s : string)
    : string → Z → nat → Prop :=
| reach_start : reach adj ac s s 0 0
| reach_step y edge D n :
    reach adj ac s y D n → flies adj ac y edge →
    reach adj ac s (dest edge) (D + distance edge) (S n).

(** Every edge of [g] flown by [ac] has a distance of at least [lo]. *)
Definition distances_from (lo : Z) (g : Graph) (ac : string) : Prop :=
  ∀ k edge, edge ∈ edges_of g k → aircraft edge = ac → lo ≤ distance edge.

(** The order of the priority queue on [(distance, hops)]. *)
Definition key_le (k1 k2 : Z * Z) : Prop :=
  k1.1 < k2.1 ∨ (k1.1 = k2.1 ∧ k1.2 ≤ k2.2).

Definition entry_key (x : Entry) : Z * Z := x.1.1.
Definition entry_airport (x : Entry) : string := x.1.2.
Definition entry_path (x : Entry) : Path := x.2.

(** Python's [<=] on entries. *)
Definition entry_le (x y : Entry) : Prop := entry_compare x y ≠ Gt.

(** ** Invariants of the searches *)

(** The invariant of the loop of [fewest_legs] started at [s].  Path
    lengths count airports: a path of [S n] airports has [n] legs. *)
Record bfs_inv (adj : string → list Edge) (ac s e : string) (st : BfsState) : Prop := {
  bfs_graph : ∀ k, edges_of st.1.1 k = adj k;
  bfs_valid : ∀ x p, (x, p) ∈ st.1.2 →
    head p = Some s ∧ last p = Some x ∧ ∃ es, path_edges adj ac p es;
  bfs_sorted :
    StronglySorted (fun a b => (length a.2 ≤ length b.2 ≤ S (length a.2))%nat) st.1.2;
  bfs_start : s ∈ st.2 ∨ ∃ p, (s, p) ∈ st.1.2 ∧ (length p ≤ 1)%nat;
  bfs_succ : ∀ z edge, z ∈ st.2 → flies adj ac z edge →
    dest edge ∈ st.2 ∨
    ∃ p, (dest edge, p) ∈ st.1.2 ∧
         ∀ D n, reach adj ac s z D n → (length p ≤ S (S n))%nat;
  bfs_end : e ∉ st.2
}.

(** The invariant of the loop of [least_distance] started at [s], for
    graphs whose distances are not negative: the keys recorded in
    [visited] never exceed a key still in the queue, and every edge out
    of a finalized airport is accounted for. *)
Record ld_inv (adj : string → list Edge) (ac s e : string) (st : LdState) : Prop := {
  ld_graph : ∀ k, edges_of st.1.1 k = adj k;
  ld_mono : ∀ z kz x, st.2 !! z = Some kz → x ∈ st.1.2 → key_le kz (entry_key x);
  ld_start :
    s ∈ dom st.2 ∨
    ∃ x, x ∈ st.1.2 ∧ entry_airport x = s ∧ key_le (entry_key x) (0, 0);
  ld_succ : ∀ z edge, z ∈ dom st.2 → flies adj ac z edge →
    dest edge ∈ dom st.2 ∨
    ∃ x, x ∈ st.1.2 ∧ entry_airport x = dest edge ∧
         ∀ D n, reach adj ac s z D n →
                key_le (entry_key x) (D + distance edge, Z.of_nat (S n));
  ld_end : e ∉ dom st.2
}.

(** Every queue entry carries a route from [s] to its airport, with the
    distance and the number of legs of that route as its key. *)
Definition ld_valid (adj : string → list Edge) (ac s : string) (st : LdState) : Prop :=
  (∀ k, edges_of st.1.1 k = adj k) ∧
  ∀ x, x ∈ st.1.2 →
    head (entry_path x) = Some s ∧ last (entry_path x) = Some (entry_airport x) ∧
    ∃ es, path_edges adj ac (entry_path x) es ∧
          entry_key x = (total_distance es, Z.of_nat (length es)).

(** The part of the invariant that needs no assumption on distances:
    what was reached is finalized or still queued. *)
Record ld_cover (adj : string → list Edge) (ac s e : string) (st : LdState) : Prop := {
  ldc_graph : ∀ k, edges_of st.1.1 k = adj k;
  ldc_start : s ∈ dom st.2 ∨ ∃ x, x ∈ st.1.2 ∧ entry_airport x = s;
  ldc_succ : ∀ z edge, z ∈ dom st.2 → flies adj ac z edge →
    dest edge ∈ dom st.2 ∨ ∃ x, x ∈ st.1.2 ∧ entry_airport x = dest edge;
  ldc_end : e ∉ dom st.2
}.

(** The edges of aircraft [ac] that leave airports not yet in [visited]:
    the work the frontier can still receive. *)
Definition pending_at (ac : string) (visited : gset string)
    (kl : string * list Edge) : nat :=
  if decide (kl.1 ∈ visited) then 0%nat
  else length (filter (fun edge => aircraft edge = ac) kl.2).

Definition pending (g : Graph) (ac : string) (visited : gset string) : nat :=
  sum_list_with (pending_at ac visited) (map_to_list g).

(** ** The properties of the routing engine *)

(** A search leaves every stored adjacency list as it was; the only keys
    it may add hold empty lists. *)
Definition graph_grown (g g' : Graph) : Prop :=
  ∀ k, g' !! k = g !! k ∨ (g !! k = None ∧ g' !! k = Some []).

(** A search leaves the graph value as it was. *)
Definition graph_unchanged_by_searches (g : Graph) (s e ac : string) : Prop :=
  (∀ fuel r g', fewest_legs fuel g s e ac = Some (r, g') → g' = g) ∧
  (∀ fuel r g', least_distance fuel g s e ac = Some (r, g') → g' = g).

(** What [fewest_legs] and [least_distance] return, when they return. *)
Definition fewest_legs_returns (g : Graph) (s e ac : string) (r : option Path) : Prop :=
  ∃ fuel g', fewest_legs fuel g s e ac = Some (r, g').

Definition least_distance_returns (g : Graph) (s e ac : string)
    (r : option (Z * Path)) : Prop :=
  ∃ fuel g', least_distance fuel g s e ac = Some (r, g').

Definition no_route (g : Graph) (ac s e : string) : Prop :=
  ¬ ∃ p es, route g ac s e p es.

(** The result of [least_distance] is a route with its total distance, no
    route is shorter, and no route of that distance has fewer legs. *)
Definition least_distance_optimal (g : Graph) (s e ac : string) : Prop :=
  ∀ D p, least_distance_returns g s e ac (Some (D, p)) →
    ∃ es, route g ac s e p es ∧ D = total_distance es ∧
      ∀ p' es', route g ac s e p' es' →
        D ≤ total_distance es' ∧
        (total_distance es' = D → (length es ≤ length es')%nat).

(** The number of edges of [g] flown by [ac]. *)
Definition edge_count (g : Graph) (ac : string) : nat := pending g ac ∅.

(** ** Concrete graphs *)

(** The tie-break scenario: A→B (100), B→D (100), A→D (200), aircraft X. *)
Definition tie_graph : Graph :=
  build [mkRoute "A" "B" "X" 100; mkRoute "B" "D" "X" 100; mkRoute "A" "D" "X" 200].

(** The same edges, with A→D recorded before A→B. *)
Definition tie_graph' : Graph :=
  build [mkRoute "A" "D" "X" 200; mkRoute "A" "B" "X" 100; mkRoute "B" "D" "X" 100].

(** The graph A→B (100), B→C (50), A→C (200), aircraft X. *)
Definition detour_graph : Graph :=
  build [mkRoute "A" "B" "X" 100; mkRoute "B" "C" "X" 50; mkRoute "A" "C" "X" 200].

(** A graph with a negative distance: A→D (5), A→B (10), B→D (-20). *)
Definition negative_graph : Graph :=
  build [mkRoute "A" "D" "X" 5; mkRoute "A" "B" "X" 10; mkRoute "B" "D" "X" (-20)].

(** A graph with a loop of negative distance: A→A (-1). *)
Definition negative_loop_graph : Graph :=
  build [mkRoute "A" "A" "X" (-1)].

(** [out] lists records of [items] in the order of their first
    occurrence: whatever follows [r] in [out] does not occur in [items]
    before the first [r]. *)
Definition first_occurrence_order (items out : list Route) : Prop :=
  ∀ l1 r l2, out = l1 ++ r :: l2 →
    ∃ i1 i2, items = i1 ++ r :: i2 ∧ (r ∉ i1) ∧ ∀ r', r' ∈ l2 → r' ∉ i1.

(** What [unique_list] promises, for a given notion of valid distance:
    no two results with the same key, only valid distances, first
    occurrence order. *)
Definition unique_valid_ordered (valid : Z → Prop) (items : list Route) : Prop :=
  NoDup (route_key <$> unique_list items) ∧
  (∀ r, r ∈ unique_list items → valid (Distance r)) ∧
  first_occurrence_order items (unique_list items).

(** [distances_from] as a test, for concrete graphs. *)
Definition distances_fromb (lo : Z) (g : Graph) (ac : string) : bool :=
  bool_decide
    (map_Forall
       (fun (_ : string) (l : list Edge) =>
          Forall (fun edge => aircraft edge = ac → lo ≤ distance edge) l) g).

(** ** The application around the searches *)

(** Python's [sorted] on strings.  Equal strings are the same value, so
    the sorted list does not depend on the sorting algorithm. *)
Definition sorted (l : list string) : list string := merge_sort String.le l.

Module RouteFinderApp.

(** The attributes that [load_routes] sets. *)
Record Loaded : Type := mkLoaded {
  routes : list Route;
  graph : Graph;
  aircraft_list : list string;
  airport_list : list string
}.

(** [RouteFinderApp.load_routes] from the parsed records on: [parsed] is
    [parse_routes_from_string(response.text)], [g] the graph of the
    application ([RouteGraph()] when [__init__] starts the load).  A
    Python [set] is a [gset]; [sorted] lists its elements. *)
Definition load_routes (g : Graph) (parsed : list Route) : Loaded :=
  let routes := unique_list parsed in
  let g := add_routes g routes in
  let aircraft_list := sorted (elements (list_to_set (Aircraft <$> routes) : gset string)) in
  let airport_list :=
    sorted (elements ((list_to_set (Departure <$> routes) : gset string)
                      ∪ list_to_set (Destination <$> routes))) in
  mkLoaded routes g aircraft_list airport_list.

(** The generator handed to [next] in [compute_routes]: the distance of
    the first edge of [edges] to [nxt] flown by [ac], or the default 0. *)
Definition leg_distance (edges : list Edge) (nxt ac : string) : Z :=
  match filter (fun edge => dest edge = nxt ∧ aircraft edge = ac) edges with
  | edge :: _ => distance edge
  | [] => 0
  end.

(** The loop [for i in range(len(path)-1)] of [compute_routes]: for each
    leg the two airports and the distance shown with them.  Each leg
    reads [self.graph.graph[path[i]]]. *)
Fixpoint leg_lines (g : Graph) (ac : string) (path : Path)
    : list (string * string * Z) * Graph :=
  match path with
  | a :: rest =>
      match rest with
      | b :: _ =>
          let '(edges, g) := getitem g a in
          let leg_dist := leg_distance edges b ac in
          let '(lines, g) := leg_lines g ac rest in
          ((a, b, leg_dist) :: lines, g)
      | [] => ([], g)
      end
  | [] => ([], g)
  end.

(** What [compute_routes] writes to the output box, as data: the
    message for missing fields, or for each search the numbers and the
    route it shows ([None] for "No route found."). *)
Inductive Output : Type :=
| PleaseSelect
| Found (fewest : option (Z * Path))
        (least : option (Z * Z * list (string * string * Z))).

(** [RouteFinderApp.compute_routes].  [if fl:] is false for [None] and
    for an empty list, [if ld:] only for [None].  Both searches run on
    the graph of the application, one after the other. *)
Definition compute_routes (fuel : nat) (g : Graph) (ac start end_ : string)
    : option (Output * Graph) :=
  if decide (ac = "" ∨ start = "" ∨ end_ = "")%string then Some (PleaseSelect, g)
  else
    match fewest_legs fuel g start end_ ac with
    | None => None
    | Some (fl, g) =>
        match least_distance fuel g start end_ ac with
        | None => None
        | Some (ld, g) =>
            let fewest :=
              match fl with
              | Some (x :: p) => Some (Z.of_nat (length (x :: p)) - 1, x :: p)
              | _ => None
              end in
            match ld with
            | Some (total_dist, path) =>
                let '(lines, g) := leg_lines g ac path in
                Some (Found fewest
                        (Some (total_dist, Z.of_nat (length path) - 1, lines)), g)
            | None => Some (Found fewest None, g)
            end
        end
    end.

End RouteFinderApp.

Module ScrollSelect.

(** Python's [q in s] on strings. *)
Fixpoint contains (q s : string) : bool :=
  String.prefix q s ||
  match s with
  | EmptyString => false
  | String _ s' => contains q s'
  end.

Section Lower.
(** [str.lower], which the list only uses to compare. *)
Variable lower : string → string.

(** [ScrollSelect.update_list]: the text of the info label and the texts
    of the buttons it creates, for [self.values = values] and the text
    [search] of the entry. *)
Definition update_list (values : list string) (search : string)
    : string * list string :=
  let query := lower search in
  let filtered :=
    if decide (query ≠ ""%string)
    then filter (fun v => contains query (lower v) = true) values
    else take 40 values in
  let info :=
    if decide (39 < length filtered)%nat then "Showing top 40 results"%string
    else ""%string in
  (info, take 40 filtered).

End Lower.
End ScrollSelect.

(** A graph with two edges A→B of aircraft X, of distances 100 and 50. *)
Definition parallel_graph : Graph :=
  build [mkRoute "A" "B" "X" 100; mkRoute "A" "B" "X" 50].


(** The legs that [compute_routes] shows for a path, over the reads
    [adj] of the graph. *)
Fixpoint legs_of (adj : string → list Edge) (ac : string) (path : Path)
    : list (string * string * Z) :=
  match path with
  | a :: rest =>
      match rest with
      | b :: _ => (a, b, RouteFinderApp.leg_distance (adj a) b ac) :: legs_of adj ac rest
      | [] => []
      end
  | [] => []
  end.

(** The sum of the distances shown with the legs. *)
Definition leg_total (lines : list (string * string * Z)) : Z :=
  foldr (fun line acc => line.2 + acc) 0 lines.

(** No two edges of aircraft [ac] join the same two airports. *)
Definition no_parallel (g : Graph) (ac : string) : Prop :=
  ∀ k e1 e2, e1 ∈ edges_of g k → e2 ∈ edges_of g k →
    aircraft e1 = ac → aircraft e2 = ac → dest e1 = dest e2 → e1 = e2.

(** Two graphs hold the same edges of aircraft [ac], in the same order,
    under every key. *)
Definition same_for (ac : string) (g1 g2 : Graph) : Prop :=
  ∀ k, filter (fun edge => aircraft edge = ac) (edges_of g1 k)
       = filter (fun edge => aircraft edge = ac) (edges_of g2 k).

(** The tie-break graph with one more edge, of another aircraft. *)
Definition tie_graph_other : Graph :=
  add_route tie_graph "A" "D" "Y" 1.

(** [ScrollSelect.__init__]: [self.values = sorted(values)]. *)
Definition scroll_values (values : list string) : list string := sorted values.

(** The values that the list can show for the text [search]: those that
    contain the lowered text, or all of them when it is empty. *)
Definition candidates (lower : string → string) (values : list string)
    (search : string) : list string :=
  if decide (lower search ≠ ""%string)
  then filter (fun v => ScrollSelect.contains (lower search) (lower v) = true) values
  else values.

(** * Proofs *)

(** ** Generic facts on loops *)

Section WhileFacts.
Context {St R : Type} (body : St → St + R).

Lemma while_S fuel st :
  while body (S fuel) st =
  match body st with inl st' => while body fuel st' | inr r => Some r end.
Proof. done. Qed.

Lemma while_mono fuel fuel' st r :
  while body fuel st = Some r → (fuel ≤ fuel')%nat → while body fuel' st = Some r.
Proof.
  revert fuel' st. induction fuel as [|fuel IH]; intros fuel' st; [done|].
  destruct fuel' as [|fuel']; [lia|]. simpl.
  destruct (body st); [|done]. intros H ?. apply IH; [done|lia].
Qed.

Lemma while_det fuel1 fuel2 st r1 r2 :
  while body fuel1 st = Some r1 → while body fuel2 st = Some r2 → r1 = r2.
Proof.
  intros H1 H2.
  apply (while_mono _ (fuel1 `max` fuel2)) in H1; [|lia].
  apply (while_mono _ (fuel1 `max` fuel2)) in H2; [|lia].
  congruence.
Qed.

(** An invariant of the body holds in the state from which the loop returns. *)
Lemma while_inv (Inv : St → Prop) :
  (∀ st st', Inv st → body st = inl st' → Inv st') →
  ∀ fuel st r, Inv st → while body fuel st = Some r →
  ∃ st', Inv st' ∧ body st' = inr r.
Proof.
  intros Hstep. induction fuel as [|fuel IH]; intros st r Hinv; [done|].
  simpl. destruct (body st) as [st'|r'] eqn:Hb.
  - apply IH. eauto.
  - intros [= ->]. eauto.
Qed.

(** A measure that every iteration decreases bounds the iterations. *)
Lemma while_measure (Inv : St → Prop) (mu : St → nat) :
  (∀ st st', Inv st → body st = inl st' → Inv st' ∧ (mu st' < mu st)%nat) →
  ∀ fuel st, Inv st → (mu st < fuel)%nat → ∃ r, while body fuel st = Some r.
Proof.
  intros Hstep. induction fuel as [|fuel IH]; intros st Hinv Hmu; [lia|].
  simpl. destruct (body st) as [st'|r'] eqn:Hb; [|eauto].
  destruct (Hstep _ _ Hinv Hb) as [Hinv' Hlt]. apply IH; [done|lia].
Qed.

End WhileFacts.

(** ** The graph as a [defaultdict] *)

Lemma getitem_fst g k : (getitem g k).1 = edges_of g k.
Proof. unfold getitem, edges_of. by destruct (g !! k). Qed.

Lemma getitem_edges_of g k k' : edges_of (getitem g k).2 k' = edges_of g k'.
Proof.
  unfold getitem, edges_of. destruct (g !! k) eqn:Hk; [done|]. simpl.
  destruct (decide (k = k')) as [<-|Hne].
  - by rewrite lookup_insert_eq, Hk.
  - by rewrite lookup_insert_ne.
Qed.

Lemma getitem_lookup g k k' :
  (getitem g k).2 !! k' =
  if decide (k' = k ∧ g !! k = None) then Some [] else g !! k'.
Proof.
  unfold getitem. destruct (g !! k) eqn:Hk; simpl.
  - case_decide as H; [|done]. destruct H; congruence.
  - case_decide as H.
    + destruct H as [-> _]. by rewrite lookup_insert_eq.
    + rewrite lookup_insert_ne; [done|]. intros <-. by apply H.
Qed.

(** ** Routes *)

Lemma path_edges_length adj ac p es :
  path_edges adj ac p es → length p = S (length es).
Proof. induction 1 as [|x y edge p es _ _ _ IH]; simpl in *; [done|by rewrite IH]. Qed.

Lemma path_edges_snoc adj ac p es x edge :
  path_edges adj ac p es → last p = Some x → flies adj ac x edge →
  path_edges adj ac (p ++ [dest edge]) (es ++ [edge]).
Proof.
  induction 1 as [x0|x0 y edge0 p es Hf Hd Hp IH]; intros Hlast Hfl; simpl in *.
  - injection Hlast as ->.
    eapply path_edges_cons; [done|done|apply path_edges_one].
  - eapply path_edges_cons; [done|done|]. by apply IH.
Qed.

Lemma path_edges_ext adj adj' ac p es :
  (∀ k, adj k = adj' k) → path_edges adj ac p es → path_edges adj' ac p es.
Proof.
  intros Hext. induction 1 as [|x y edge p es [Hin Hac] Hd Hp IH]; constructor; try done.
  split; [|done]. by rewrite <-Hext.
Qed.

Lemma total_distance_snoc es edge :
  total_distance (es ++ [edge]) = total_distance es + distance edge.
Proof. induction es as [|e0 es IH]; simpl; lia. Qed.

(** Following the edges of a path from its first airport. *)
Lemma path_edges_reach adj ac s p es x y D n :
  path_edges adj ac p es → head p = Some x → last p = Some y →
  reach adj ac s x D n →
  reach adj ac s y (D + total_distance es) (n + length es).
Proof.
  intros Hp. revert x D n.
  induction Hp as [x0|x0 y0 edge p es Hf Hd Hp IH]; intros x D n Hh Hl Hr; simpl in *.
  - injection Hh as ->. injection Hl as ->.
    by replace (D + 0) with D by lia; replace (n + 0)%nat with n by lia.
  - injection Hh as ->.
    replace (D + (distance edge + total_distance es))
      with ((D + distance edge) + total_distance es) by lia.
    replace (n + S (length es))%nat with (S n + length es)%nat by lia.
    apply (IH y0); [done|done|]. subst y0. by eapply reach_step.
Qed.

Lemma route_reach g ac s e p es :
  route g ac s e p es →
  reach (edges_of g) ac s e (total_distance es) (length es).
Proof.
  intros (Hh & Hl & Hp).
  apply (path_edges_reach _ _ s _ _ s e 0 0%nat Hp Hh Hl). constructor.
Qed.

(** ** The inner loops *)

Lemma bfs_expand_eq ac path edges queue :
  bfs_expand ac path edges queue =
  queue ++ ((fun edge => (dest edge, path ++ [dest edge])) <$>
            filter (fun edge => aircraft edge = ac) edges).
Proof.
  unfold bfs_expand. revert queue.
  induction edges as [|edge edges IH]; intros queue; simpl.
  - by rewrite app_nil_r.
  - rewrite IH, filter_cons. destruct (decide (aircraft edge ≠ ac)) as [Hne|Heq].
    + by rewrite decide_False by done.
    + apply dec_stable in Heq. rewrite decide_True by done.
      by rewrite fmap_cons, <-app_assoc.
Qed.

Lemma ld_expand_eq ac dist hops path edges pq :
  ld_expand ac dist hops path edges pq =
  reverse ((fun edge => (dist + distance edge, hops + 1, dest edge, path ++ [dest edge])) <$>
           filter (fun edge => aircraft edge = ac) edges) ++ pq.
Proof.
  unfold ld_expand. revert pq.
  induction edges as [|edge edges IH]; intros pq; simpl; [done|].
  rewrite IH, filter_cons. destruct (decide (aircraft edge ≠ ac)) as [Hne|Heq].
  - by rewrite decide_False by done.
  - apply dec_stable in Heq. rewrite decide_True by done.
    by rewrite fmap_cons, reverse_cons, <-app_assoc.
Qed.

(** ** The body of [fewest_legs], case by case *)

Lemma fewest_legs_body_inl e ac g queue visited st' :
  fewest_legs_body e ac (g, queue, visited) = inl st' →
  ∃ x p q, queue = (x, p) :: q ∧ x ≠ e ∧
    ((x ∈ visited ∧ st' = (g, q, visited)) ∨
     ((x ∉ visited) ∧
      st' = ((getitem g x).2,
             q ++ ((fun edge => (dest edge, p ++ [dest edge])) <$>
                   filter (fun edge => aircraft edge = ac) (edges_of g x)),
             {[x]} ∪ visited))).
Proof.
  unfold fewest_legs_body. destruct queue as [|[x p] q]; [done|].
  destruct (decide (x = e)); [done|]. intros H. exists x, p, q.
  split; [done|]. split; [done|].
  destruct (decide (x ∈ visited)).
  - left. by injection H as <-.
  - right. rewrite <-getitem_fst. destruct (getitem g x) as [edges g'].
    rewrite bfs_expand_eq in H. by injection H as <-.
Qed.

Lemma fewest_legs_body_inr e ac g queue visited r :
  fewest_legs_body e ac (g, queue, visited) = inr r →
  (queue = [] ∧ r = (None, g)) ∨
  (∃ p q, queue = (e, p) :: q ∧ r = (Some p, g)).
Proof.
  unfold fewest_legs_body. destruct queue as [|[x p] q].
  - intros [= <-]. by left.
  - destruct (decide (x = e)) as [->|].
    + intros [= <-]. right. eauto.
    + destruct (decide (x ∈ visited)); [done|]. by destruct (getitem g x).
Qed.

(** ** Breadth-first search: the invariant *)

Section BfsInvariant.
Context (adj : string → list Edge) (ac s e : string).

(** Whatever is reached from the start by [n] legs is visited, or the
    queue still holds a path of at most [n] legs. *)
Lemma bfs_frontier st y D n :
  bfs_inv adj ac s e st → reach adj ac s y D n →
  y ∈ st.2 ∨ ∃ x p, (x, p) ∈ st.1.2 ∧ (length p ≤ S n)%nat.
Proof.
  intros Hinv Hr. induction Hr as [|y edge D n Hr IH Hf].
  - destruct (bfs_start _ _ _ _ _ Hinv) as [?|(p & ? & ?)]; [by left|right; eauto].
  - destruct IH as [Hv|(x & p & Hin & Hlen)].
    + destruct (bfs_succ _ _ _ _ _ Hinv y edge Hv Hf) as [?|(p & Hin & Hb)]; [by left|].
      right. exists (dest edge), p. split; [done|]. by eapply Hb.
    + right. exists x, p. split; [done|lia].
Qed.

Lemma bfs_inv_init g :
  (∀ k, edges_of g k = adj k) → bfs_inv adj ac s e (g, [(s, [s])], ∅).
Proof.
  intros Hg. split; simpl.
  - done.
  - intros x p [= -> ->]%list_elem_of_singleton.
    repeat split. exists []. constructor.
  - repeat constructor.
  - right. exists [s]. split; [apply list_elem_of_here|simpl; lia].
  - set_solver.
  - set_solver.
Qed.

Lemma bfs_head_least x p q y p' (visited : gset string) g :
  bfs_inv adj ac s e (g, (x, p) :: q, visited) →
  (y, p') ∈ (x, p) :: q → (length p ≤ length p')%nat.
Proof.
  intros Hinv [[= -> ->]|Hin]%elem_of_cons; [done|].
  pose proof (bfs_sorted _ _ _ _ _ Hinv) as Hs. simpl in Hs.
  apply StronglySorted_cons in Hs as [Hall _].
  rewrite Forall_forall in Hall. apply Hall in Hin. simpl in Hin. lia.
Qed.

Lemma bfs_inv_step st st' :
  bfs_inv adj ac s e st → fewest_legs_body e ac st = inl st' →
  bfs_inv adj ac s e st'.
Proof.
  destruct st as [[g queue] visited]. intros Hinv Hbody.
  apply fewest_legs_body_inl in Hbody
    as (x & p & q & -> & Hxe & [[Hxv ->]|[Hxv ->]]);
    pose proof Hinv as [Hg Hvalid Hsorted Hstart Hsucc Hend]; simpl in *;
    apply StronglySorted_cons in Hsorted as [Hall Hsorted];
    rewrite Forall_forall in Hall.
  - (* the entry is skipped *)
    split; simpl; [done| |done| | |done].
    + intros y p' Hin. apply Hvalid. by apply list_elem_of_further.
    + destruct Hstart as [?|(p' & [[= <- <-]|Hin]%elem_of_cons & Hlen)];
        [by left|by left|right; eauto].
    + intros z edge Hz Hf.
      destruct (Hsucc z edge Hz Hf) as [?|(p' & [[= Hd <-]|Hin]%elem_of_cons & Hb)].
      * by left.
      * left. by rewrite Hd.
      * right. eauto.
  - (* the airport is marked and expanded *)
    rewrite Hg.
    destruct (Hvalid x p) as (Hhead & Hlast & es & Hpath); [apply list_elem_of_here|].
    assert (∀ edge, flies adj ac x edge →
              (dest edge, p ++ [dest edge]) ∈
                q ++ ((fun edge => (dest edge, p ++ [dest edge])) <$>
                      filter (fun edge => aircraft edge = ac) (adj x))) as Hchild.
    { intros edge [Hin Hac]. apply elem_of_app. right.
      apply list_elem_of_fmap. exists edge. split; [done|].
      by apply list_elem_of_filter. }
    split; simpl.
    + intros k. by rewrite getitem_edges_of.
    + intros y p' [Hin|Hin]%elem_of_app.
      * apply Hvalid. by apply list_elem_of_further.
      * apply list_elem_of_fmap in Hin as (edge & [= -> ->] & [Hac Hin]%list_elem_of_filter).
        split; [by destruct p|]. split; [apply last_snoc|].
        exists (es ++ [edge]). by apply path_edges_snoc with x.
    + apply StronglySorted_app. split; [|split; [done|]].
      * intros a b Ha Hb. apply Hall in Ha.
        apply list_elem_of_fmap in Hb as (edge & -> & _). simpl in *.
        rewrite length_app. simpl. lia.
      * generalize (filter (fun edge => aircraft edge = ac) (adj x)).
        intros l. induction l as [|edge l IH]; simpl; constructor; [done|].
        apply Forall_forall. intros b (edge' & -> & _)%list_elem_of_fmap. simpl.
        rewrite !length_app. simpl. lia.
    + destruct Hstart as [?|(p' & [[= <- <-]|Hin]%elem_of_cons & Hlen)].
      * left. by apply elem_of_union_r.
      * left. by apply elem_of_union_l, elem_of_singleton.
      * right. exists p'. split; [|done]. apply elem_of_app. by left.
    + intros z edge Hz Hf. apply elem_of_union in Hz as [->%elem_of_singleton|Hz].
      * right. exists (p ++ [dest edge]). split; [by apply Hchild|].
        intros D n Hr.
        destruct (bfs_frontier _ _ _ _ Hinv Hr) as [?|(y & p' & Hin & Hlen)]; [done|].
        simpl in Hin. apply (bfs_head_least _ _ _ _ _ _ _ Hinv) in Hin.
        rewrite length_app. simpl. lia.
      * destruct (Hsucc z edge Hz Hf) as [?|(p' & [[= Hd <-]|Hin]%elem_of_cons & Hb)].
        -- left. by apply elem_of_union_r.
        -- left. rewrite Hd. by apply elem_of_union_l, elem_of_singleton.
        -- right. exists p'. split; [|done]. apply elem_of_app. by left.
    + intros [?%elem_of_singleton|?]%elem_of_union; [congruence|done].
Qed.

(** The path returned is a route, and no route has fewer legs. *)
Lemma bfs_inv_found st p g' :
  bfs_inv adj ac s e st → fewest_legs_body e ac st = inr (Some p, g') →
  (head p = Some s ∧ last p = Some e ∧ ∃ es, path_edges adj ac p es) ∧
  ∀ D n, reach adj ac s e D n → (length p ≤ S n)%nat.
Proof.
  destruct st as [[g queue] visited]. intros Hinv Hbody.
  apply fewest_legs_body_inr in Hbody as [[_ [=]]|(p0 & q & -> & [= <- _])].
  split.
  - apply (bfs_valid _ _ _ _ _ Hinv). apply list_elem_of_here.
  - intros D n Hr.
    destruct (bfs_frontier _ _ _ _ Hinv Hr) as [Hv|(y & p' & Hin & Hlen)].
    + by destruct (bfs_end _ _ _ _ _ Hinv).
    + simpl in Hin. apply (bfs_head_least _ _ _ _ _ _ _ Hinv) in Hin. lia.
Qed.

(** When the queue runs empty the end is out of reach. *)
Lemma bfs_inv_none st g' :
  bfs_inv adj ac s e st → fewest_legs_body e ac st = inr (None, g') →
  ∀ D n, ¬ reach adj ac s e D n.
Proof.
  destruct st as [[g queue] visited]. intros Hinv Hbody D n Hr.
  apply fewest_legs_body_inr in Hbody as [[-> _]|(p0 & q & _ & [=])].
  destruct (bfs_frontier _ _ _ _ Hinv Hr) as [Hv|(y & p' & Hin & Hlen)].
  - by destruct (bfs_end _ _ _ _ _ Hinv).
  - simpl in Hin. by apply elem_of_nil in Hin.
Qed.

End BfsInvariant.

(** ** The priority queue *)

Lemma key_le_refl k : key_le k k.
Proof. unfold key_le. lia. Qed.

Lemma key_le_trans k1 k2 k3 : key_le k1 k2 → key_le k2 k3 → key_le k1 k3.
Proof. unfold key_le. lia. Qed.

Lemma entry_ltb_true x y : entry_ltb x y = true → key_le (entry_key x) (entry_key y).
Proof.
  destruct x as [[[d1 h1] a1] p1], y as [[[d2 h2] a2] p2].
  unfold entry_ltb, entry_compare, key_le, entry_key. simpl.
  destruct (Z.compare_spec d1 d2); [|lia|done].
  destruct (Z.compare_spec h1 h2); [lia|lia|done].
Qed.

Lemma entry_ltb_false x y : entry_ltb x y = false → key_le (entry_key y) (entry_key x).
Proof.
  destruct x as [[[d1 h1] a1] p1], y as [[[d2 h2] a2] p2].
  unfold entry_ltb, entry_compare, key_le, entry_key. simpl.
  destruct (Z.compare_spec d1 d2); [|done|lia].
  destruct (Z.compare_spec h1 h2); [lia|done|lia].
Qed.

Lemma pop_min_spec x l m r :
  heapq.pop_min x l = (m, r) →
  m :: r ≡ₚ x :: l ∧ ∀ y, y ∈ x :: l → key_le (entry_key m) (entry_key y).
Proof.
  revert x m r. induction l as [|y l IH]; intros x m r; simpl.
  - intros [= <- <-]. split; [done|].
    intros y ->%list_elem_of_singleton. apply key_le_refl.
  - destruct (entry_ltb y x) eqn:Hlt.
    + destruct (heapq.pop_min y l) as [m' r'] eqn:Hpop. intros [= <- <-].
      destruct (IH _ _ _ Hpop) as [Hperm Hmin]. split.
      * rewrite <-Hperm. apply Permutation_swap.
      * intros z [->|Hz]%elem_of_cons; [|by apply Hmin].
        apply key_le_trans with (entry_key y); [|by apply entry_ltb_true].
        apply Hmin, list_elem_of_here.
    + destruct (heapq.pop_min x l) as [m' r'] eqn:Hpop. intros [= <- <-].
      destruct (IH _ _ _ Hpop) as [Hperm Hmin]. split.
      * rewrite <-(Permutation_swap x y l), <-Hperm. apply Permutation_swap.
      * intros z [->|[->|Hz]%elem_of_cons]%elem_of_cons.
        -- apply Hmin, list_elem_of_here.
        -- apply key_le_trans with (entry_key x); [|by apply entry_ltb_false].
           apply Hmin, list_elem_of_here.
        -- by apply Hmin, list_elem_of_further.
Qed.

(** [heappop] returns an entry of the heap with the least key and keeps
    the others. *)
Lemma heappop_Some pq m pq' :
  heapq.heappop pq = Some (m, pq') →
  m :: pq' ≡ₚ pq ∧ ∀ y, y ∈ pq → key_le (entry_key m) (entry_key y).
Proof.
  destruct pq as [|x l]; [done|]. simpl. intros [= H]. by apply pop_min_spec.
Qed.

Lemma heappop_None pq : heapq.heappop pq = None → pq = [].
Proof. by destruct pq. Qed.

(** ** The order of the heap is total

    Python compares the tuples componentwise.  The comparison is a
    strict total order, so a bag of entries has one least entry, and
    [heappop] returns it however the bag is laid out. *)

Lemma string_compare_refl (a : string) : String.compare a a = Eq.
Proof.
  induction a as [|c a IH]; simpl; [done|].
  unfold Ascii.compare. by rewrite N.compare_refl.
Qed.

Lemma string_compare_trans (a b c : string) :
  String.compare a b = Lt → String.compare b c = Lt → String.compare a c = Lt.
Proof.
  intros Hab Hbc.
  assert (String.le a c) as Hac.
  { trans b; unfold String.le, String.leb; [by rewrite Hab|by rewrite Hbc]. }
  unfold String.le, String.leb in Hac.
  destruct (String.compare a c) eqn:Hc; [|done|done].
  apply String.compare_eq_iff in Hc as ->.
  rewrite String.compare_antisym, Hbc in Hab. done.
Qed.

Lemma path_compare_refl (p : Path) : path_compare p p = Eq.
Proof. induction p as [|x p IH]; simpl; [done|]. by rewrite string_compare_refl. Qed.

Lemma path_compare_eq (p q : Path) : path_compare p q = Eq → p = q.
Proof.
  revert q. induction p as [|x p IH]; intros [|y q]; simpl; try done.
  destruct (String.compare x y) eqn:Hxy; try done.
  apply String.compare_eq_iff in Hxy as ->. by intros ->%IH.
Qed.

Lemma path_compare_antisym (p q : Path) :
  path_compare q p = CompOpp (path_compare p q).
Proof.
  revert q. induction p as [|x p IH]; intros [|y q]; simpl; try done.
  rewrite (String.compare_antisym y x).
  destruct (String.compare x y); simpl; [apply IH|done|done].
Qed.

Lemma path_compare_trans (p q r : Path) :
  path_compare p q = Lt → path_compare q r = Lt → path_compare p r = Lt.
Proof.
  revert q r. induction p as [|x p IH]; intros [|y q] [|z r]; simpl; try done.
  destruct (String.compare x y) eqn:Hxy; try done.
  - apply String.compare_eq_iff in Hxy as ->.
    destruct (String.compare y z); try done. apply IH.
  - intros _. destruct (String.compare y z) eqn:Hyz; try done.
    + apply String.compare_eq_iff in Hyz as <-. by rewrite Hxy.
    + by rewrite (string_compare_trans x y z).
Qed.

Lemma entry_compare_eq (x y : Entry) : entry_compare x y = Eq → x = y.
Proof.
  destruct x as [[[d1 h1] a1] p1], y as [[[d2 h2] a2] p2]. simpl.
  destruct (Z.compare_spec d1 d2) as [->| |]; try done.
  destruct (Z.compare_spec h1 h2) as [->| |]; try done.
  destruct (String.compare a1 a2) eqn:Ha; try done.
  apply String.compare_eq_iff in Ha as ->. by intros ->%path_compare_eq.
Qed.

Lemma entry_compare_antisym (x y : Entry) :
  entry_compare y x = CompOpp (entry_compare x y).
Proof.
  destruct x as [[[d1 h1] a1] p1], y as [[[d2 h2] a2] p2]. simpl.
  rewrite (Z.compare_antisym d1 d2), (Z.compare_antisym h1 h2),
    (String.compare_antisym a2 a1), (path_compare_antisym p1 p2).
  by destruct (d1 ?= d2), (h1 ?= h2), (String.compare a1 a2).
Qed.

Lemma entry_compare_trans (x y z : Entry) :
  entry_compare x y = Lt → entry_compare y z = Lt → entry_compare x z = Lt.
Proof.
  destruct x as [[[d1 h1] a1] p1], y as [[[d2 h2] a2] p2], z as [[[d3 h3] a3] p3].
  simpl.
  destruct (Z.compare_spec d1 d2) as [->|Hd12|]; [|intros _|done].
  - destruct (Z.compare_spec d2 d3) as [->|Hd23|]; [|done|done].
    destruct (Z.compare_spec h1 h2) as [->|Hh12|]; [|intros _|done].
    + destruct (Z.compare_spec h2 h3) as [->|Hh23|]; [|done|done].
      destruct (String.compare a1 a2) eqn:Ha12; [|intros _|done].
      * apply String.compare_eq_iff in Ha12 as ->.
        destruct (String.compare a2 a3); [|done|done]. apply path_compare_trans.
      * destruct (String.compare a2 a3) eqn:Ha23; [|intros _|done].
        -- apply String.compare_eq_iff in Ha23 as <-. by rewrite Ha12.
        -- by rewrite (string_compare_trans a1 a2 a3).
    + destruct (Z.compare_spec h2 h3) as [->|Hh23|]; [|intros _|done].
      * by destruct (Z.compare_spec h1 h3); [lia| |lia].
      * by destruct (Z.compare_spec h1 h3); [lia| |lia].
  - destruct (Z.compare_spec d2 d3) as [->|Hd23|]; [|intros _|done].
    + by destruct (Z.compare_spec d1 d3); [lia| |lia].
    + by destruct (Z.compare_spec d1 d3); [lia| |lia].
Qed.

Lemma entry_le_refl (x : Entry) : entry_le x x.
Proof.
  unfold entry_le. destruct x as [[[d h] a] p]. simpl.
  by rewrite !Z.compare_refl, string_compare_refl, path_compare_refl.
Qed.

Lemma entry_le_trans (x y z : Entry) :
  entry_le x y → entry_le y z → entry_le x z.
Proof.
  unfold entry_le. intros Hxy Hyz.
  destruct (entry_compare x y) eqn:Exy; [|clear Hxy|done].
  { by apply entry_compare_eq in Exy as ->. }
  destruct (entry_compare y z) eqn:Eyz; [|clear Hyz|done].
  { apply entry_compare_eq in Eyz as <-. by rewrite Exy. }
  by rewrite (entry_compare_trans x y z).
Qed.

Lemma entry_le_antisym (x y : Entry) : entry_le x y → entry_le y x → x = y.
Proof.
  unfold entry_le. rewrite (entry_compare_antisym x y).
  destruct (entry_compare x y) eqn:E; simpl; [|done|done].
  intros _ _. by apply entry_compare_eq.
Qed.

(** [pop_min] returns the least entry for Python's order. *)
Lemma pop_min_least x l m r :
  heapq.pop_min x l = (m, r) → ∀ y, y ∈ x :: l → entry_le m y.
Proof.
  revert x m r. induction l as [|y l IH]; intros x m r; simpl.
  - intros [= <- <-] y ->%list_elem_of_singleton. apply entry_le_refl.
  - unfold entry_ltb. destruct (entry_compare y x) eqn:Hyx.
    + destruct (heapq.pop_min x l) as [m' r'] eqn:Hpop. intros [= <- <-].
      pose proof (IH _ _ _ Hpop) as Hmin.
      intros z [->|[->|Hz]%elem_of_cons]%elem_of_cons.
      * apply Hmin, list_elem_of_here.
      * apply entry_compare_eq in Hyx as ->. apply Hmin, list_elem_of_here.
      * by apply Hmin, list_elem_of_further.
    + destruct (heapq.pop_min y l) as [m' r'] eqn:Hpop. intros [= <- <-].
      pose proof (IH _ _ _ Hpop) as Hmin.
      intros z [->|Hz]%elem_of_cons; [|by apply Hmin].
      apply entry_le_trans with y; [apply Hmin, list_elem_of_here|].
      unfold entry_le. by rewrite Hyx.
    + destruct (heapq.pop_min x l) as [m' r'] eqn:Hpop. intros [= <- <-].
      pose proof (IH _ _ _ Hpop) as Hmin.
      intros z [->|[->|Hz]%elem_of_cons]%elem_of_cons.
      * apply Hmin, list_elem_of_here.
      * apply entry_le_trans with x; [apply Hmin, list_elem_of_here|].
        unfold entry_le. by rewrite (entry_compare_antisym y x), Hyx.
      * by apply Hmin, list_elem_of_further.
Qed.

(** Two layouts of the same bag pop the same entry and leave the same bag. *)
Lemma heappop_bag pq1 pq2 m1 r1 m2 r2 :
  pq1 ≡ₚ pq2 →
  heapq.heappop pq1 = Some (m1, r1) → heapq.heappop pq2 = Some (m2, r2) →
  m1 = m2 ∧ r1 ≡ₚ r2.
Proof.
  intros Hperm H1 H2.
  destruct (heappop_Some _ _ _ H1) as [Hp1 _], (heappop_Some _ _ _ H2) as [Hp2 _].
  destruct pq1 as [|x1 l1]; [done|]. destruct pq2 as [|x2 l2]; [done|].
  simpl in H1, H2. injection H1 as H1. injection H2 as H2.
  pose proof (pop_min_least _ _ _ _ H1) as Hmin1.
  pose proof (pop_min_least _ _ _ _ H2) as Hmin2.
  assert (m1 = m2) as <-.
  { apply entry_le_antisym.
    - apply Hmin1. rewrite Hperm, <-Hp2. apply list_elem_of_here.
    - apply Hmin2. rewrite <-Hperm, <-Hp1. apply list_elem_of_here. }
  split; [done|]. apply (Permutation_cons_inv (a := m1)).
  by rewrite Hp1, Hp2.
Qed.

Lemma ld_skip_true visited x d h :
  ld_skip visited x d h = true → x ∈ dom visited.
Proof.
  unfold ld_skip. destruct (visited !! x) eqn:Hx; [|done].
  intros _. apply elem_of_dom. eauto.
Qed.

Lemma ld_skip_false visited x d h bd bh :
  ld_skip visited x d h = false → visited !! x = Some (bd, bh) →
  ¬ key_le (bd, bh) (d, h).
Proof.
  unfold ld_skip, key_le. intros Hs Hx. rewrite Hx in Hs. simpl.
  repeat case_decide; try done. lia.
Qed.

(** The body of [least_distance], case by case. *)

Lemma least_distance_body_inl e ac g pq visited st' :
  least_distance_body e ac (g, pq, visited) = inl st' →
  ∃ d h x p pq', heapq.heappop pq = Some ((d, h, x, p), pq') ∧ x ≠ e ∧
    ((ld_skip visited x d h = true ∧ st' = (g, pq', visited)) ∨
     (ld_skip visited x d h = false ∧
      st' = ((getitem g x).2,
             reverse ((fun edge => (d + distance edge, h + 1, dest edge, p ++ [dest edge])) <$>
                      filter (fun edge => aircraft edge = ac) (edges_of g x)) ++ pq',
             <[x := (d, h)]> visited))).
Proof.
  unfold least_distance_body.
  destruct (heapq.heappop pq) as [[[[[d h] x] p] pq']|]; [|done].
  destruct (decide (x = e)); [done|]. intros H. exists d, h, x, p, pq'.
  split; [done|]. split; [done|].
  destruct (ld_skip visited x d h).
  - left. by injection H as <-.
  - right. rewrite <-getitem_fst. destruct (getitem g x) as [edges g'].
    rewrite ld_expand_eq in H. by injection H as <-.
Qed.

Lemma least_distance_body_inr e ac g pq visited r :
  least_distance_body e ac (g, pq, visited) = inr r →
  (pq = [] ∧ r = (None, g)) ∨
  (∃ d h p pq', heapq.heappop pq = Some ((d, h, e, p), pq') ∧ r = (Some (d, p), g)).
Proof.
  unfold least_distance_body.
  destruct (heapq.heappop pq) as [[[[[d h] x] p] pq']|] eqn:Hpop.
  - destruct (decide (x = e)) as [->|].
    + intros [= <-]. right. eauto 6.
    + destruct (ld_skip visited x d h); [done|]. by destruct (getitem g x).
  - intros [= <-]. left. by apply heappop_None in Hpop.
Qed.

(** ** Uniform-cost search: the invariants *)

Section LdInvariant.
Context (adj : string → list Edge) (ac s e : string).

Lemma ld_valid_init g :
  (∀ k, edges_of g k = adj k) → ld_valid adj ac s (g, [(0, 0, s, [s])], ∅).
Proof.
  intros Hg. split; [done|]. simpl. intros x ->%list_elem_of_singleton.
  repeat split. exists []. split; [constructor|done].
Qed.

Lemma ld_valid_step st st' :
  ld_valid adj ac s st → least_distance_body e ac st = inl st' →
  ld_valid adj ac s st'.
Proof.
  destruct st as [[g pq] visited]. intros [Hg Hvalid] Hbody. simpl in *.
  apply least_distance_body_inl in Hbody
    as (d & h & x & p & pq' & Hpop & Hxe & [[Hskip ->]|[Hskip ->]]);
    apply heappop_Some in Hpop as [Hperm Hmin].
  - split; [done|]. simpl. intros y Hy. apply Hvalid. rewrite <-Hperm.
    by apply list_elem_of_further.
  - split; simpl.
    { intros k. by rewrite getitem_edges_of. }
    intros y [Hy|Hy]%elem_of_app.
    + apply elem_of_reverse, list_elem_of_fmap in Hy
        as (edge & -> & [Hac Hin]%list_elem_of_filter).
      destruct (Hvalid (d, h, x, p)) as (Hh & Hl & es & Hp & Hk).
      { rewrite <-Hperm. apply list_elem_of_here. }
      unfold entry_path, entry_airport, entry_key in *. simpl in *.
      split; [by destruct p|]. split; [apply last_snoc|].
      exists (es ++ [edge]). split.
      * apply path_edges_snoc with x; [done|done|]. split; [by rewrite <-Hg|done].
      * injection Hk as -> ->. rewrite total_distance_snoc, length_app. simpl.
        f_equal. lia.
    + apply Hvalid. rewrite <-Hperm. by apply list_elem_of_further.
Qed.

Lemma ld_cover_init g :
  (∀ k, edges_of g k = adj k) → ld_cover adj ac s e (g, [(0, 0, s, [s])], ∅).
Proof.
  intros Hg. split; simpl.
  - done.
  - right. exists (0, 0, s, [s]). split; [apply list_elem_of_here|done].
  - intros z edge Hz. by rewrite dom_empty_L in Hz.
  - by rewrite dom_empty_L.
Qed.

Lemma ld_cover_step st st' :
  ld_cover adj ac s e st → least_distance_body e ac st = inl st' →
  ld_cover adj ac s e st'.
Proof.
  destruct st as [[g pq] visited]. intros [Hg Hstart Hsucc Hend] Hbody. simpl in *.
  apply least_distance_body_inl in Hbody
    as (d & h & x & p & pq' & Hpop & Hxe & [[Hskip ->]|[Hskip ->]]);
    apply heappop_Some in Hpop as [Hperm Hmin].
  - apply ld_skip_true in Hskip. split; simpl; [done| | |done].
    + destruct Hstart as [?|(y & Hy & Ha)]; [by left|].
      rewrite <-Hperm in Hy. apply elem_of_cons in Hy as [->|Hy]; [|right; eauto].
      left. by rewrite <-Ha.
    + intros z edge Hz Hf. destruct (Hsucc z edge Hz Hf) as [?|(y & Hy & Ha)]; [by left|].
      rewrite <-Hperm in Hy. apply elem_of_cons in Hy as [->|Hy]; [|right; eauto].
      left. by rewrite <-Ha.
  - split; simpl.
    + intros k. by rewrite getitem_edges_of.
    + rewrite dom_insert_L.
      destruct Hstart as [?|(y & Hy & Ha)]; [left; by apply elem_of_union_r|].
      rewrite <-Hperm in Hy. apply elem_of_cons in Hy as [->|Hy].
      * left. apply elem_of_union_l, elem_of_singleton. by rewrite <-Ha.
      * right. exists y. split; [|done]. apply elem_of_app. by right.
    + rewrite dom_insert_L. intros z edge Hz Hf.
      apply elem_of_union in Hz as [->%elem_of_singleton|Hz].
      * right. exists (d + distance edge, h + 1, dest edge, p ++ [dest edge]).
        split; [|done]. apply elem_of_app. left.
        apply elem_of_reverse, list_elem_of_fmap. exists edge. split; [done|].
        apply list_elem_of_filter. destruct Hf as [Hin Hac]. by rewrite Hg.
      * destruct (Hsucc z edge Hz Hf) as [?|(y & Hy & Ha)]; [left; by apply elem_of_union_r|].
        rewrite <-Hperm in Hy. apply elem_of_cons in Hy as [->|Hy].
        -- left. apply elem_of_union_l, elem_of_singleton. by rewrite <-Ha.
        -- right. exists y. split; [|done]. apply elem_of_app. by right.
    + rewrite dom_insert_L. intros [->%elem_of_singleton|?]%elem_of_union; done.
Qed.

(** What is reached is finalized unless the queue still holds entries. *)
Lemma ld_cover_reach st y D n :
  ld_cover adj ac s e st → reach adj ac s y D n →
  y ∈ dom st.2 ∨ st.1.2 ≠ [].
Proof.
  intros Hc Hr. induction Hr as [|y edge D n Hr IH Hf].
  - destruct (ldc_start _ _ _ _ _ Hc) as [?|(x & Hx & _)]; [by left|].
    right. intros Hnil. rewrite Hnil in Hx. by apply elem_of_nil in Hx.
  - destruct IH as [Hv|?]; [|by right].
    destruct (ldc_succ _ _ _ _ _ Hc y edge Hv Hf) as [?|(x & Hx & _)]; [by left|].
    right. intros Hnil. rewrite Hnil in Hx. by apply elem_of_nil in Hx.
Qed.

End LdInvariant.

Section LdOptimal.
Context (adj : string → list Edge) (ac s e : string).
Hypothesis Hnonneg : ∀ z edge, flies adj ac z edge → 0 ≤ distance edge.

(** Whatever is reached from the start with key [(D, n)] is finalized, or
    the queue still holds an entry whose key is at most [(D, n)]. *)
Lemma ld_frontier st y D n :
  ld_inv adj ac s e st → reach adj ac s y D n →
  y ∈ dom st.2 ∨ ∃ x, x ∈ st.1.2 ∧ key_le (entry_key x) (D, Z.of_nat n).
Proof.
  intros Hinv Hr. induction Hr as [|y edge D n Hr IH Hf].
  - destruct (ld_start _ _ _ _ _ Hinv) as [?|(x & ? & _ & ?)]; [by left|right; eauto].
  - destruct IH as [Hv|(x & Hin & Hle)].
    + destruct (ld_succ _ _ _ _ _ Hinv y edge Hv Hf) as [?|(x & Hin & _ & Hb)]; [by left|].
      right. exists x. split; [done|]. by eapply Hb.
    + right. exists x. split; [done|].
      apply key_le_trans with (D, Z.of_nat n); [done|].
      apply Hnonneg in Hf. unfold key_le. simpl. lia.
Qed.

Lemma ld_inv_init g :
  (∀ k, edges_of g k = adj k) → ld_inv adj ac s e (g, [(0, 0, s, [s])], ∅).
Proof.
  intros Hg. split; simpl.
  - done.
  - intros z kz x Hz. by rewrite lookup_empty in Hz.
  - right. exists (0, 0, s, [s]).
    split; [apply list_elem_of_here|]. split; [done|apply key_le_refl].
  - intros z edge Hz. by rewrite dom_empty_L in Hz.
  - by rewrite dom_empty_L.
Qed.

(** Under the invariant an entry is pruned exactly when its airport was
    finalized before. *)
Lemma ld_inv_not_skipped g pq visited m pq' :
  ld_inv adj ac s e (g, pq, visited) →
  m :: pq' ≡ₚ pq →
  ld_skip visited (entry_airport m) (entry_key m).1 (entry_key m).2 = false →
  entry_airport m ∉ dom visited.
Proof.
  intros Hinv Hperm Hskip [[bd bh] Hx]%elem_of_dom.
  eapply ld_skip_false; [done..|].
  replace ((entry_key m).1, (entry_key m).2) with (entry_key m) by by destruct (entry_key m).
  apply (ld_mono _ _ _ _ _ Hinv _ _ _ Hx). simpl.
  rewrite <-Hperm. apply list_elem_of_here.
Qed.

Lemma ld_inv_step st st' :
  ld_inv adj ac s e st → least_distance_body e ac st = inl st' →
  ld_inv adj ac s e st'.
Proof.
  destruct st as [[g pq] visited]. intros Hinv Hbody.
  pose proof Hinv as [Hg Hmono Hstart Hsucc Hend]. simpl in *.
  apply least_distance_body_inl in Hbody
    as (d & h & x & p & pq' & Hpop & Hxe & [[Hskip ->]|[Hskip ->]]);
    apply heappop_Some in Hpop as [Hperm Hmin].
  - (* the entry is pruned *)
    apply ld_skip_true in Hskip. split; simpl; [done| | | |done].
    + intros z kz y Hz Hy. apply (Hmono z); [done|].
      rewrite <-Hperm. by apply list_elem_of_further.
    + destruct Hstart as [?|(y & Hy & Ha & Hk)]; [by left|].
      rewrite <-Hperm in Hy. apply elem_of_cons in Hy as [->|Hy]; [|right; eauto].
      left. by rewrite <-Ha.
    + intros z edge Hz Hf.
      destruct (Hsucc z edge Hz Hf) as [?|(y & Hy & Ha & Hk)]; [by left|].
      rewrite <-Hperm in Hy. apply elem_of_cons in Hy as [->|Hy]; [|right; eauto].
      left. by rewrite <-Ha.
  - (* the airport is finalized and expanded *)
    pose proof (ld_inv_not_skipped _ _ _ (d, h, x, p) _ Hinv Hperm Hskip) as Hxv.
    unfold entry_airport in Hxv. simpl in Hxv.
    assert (∀ edge, flies adj ac x edge →
              (d + distance edge, h + 1, dest edge, p ++ [dest edge]) ∈
                reverse ((fun edge => (d + distance edge, h + 1, dest edge, p ++ [dest edge])) <$>
                         filter (fun edge => aircraft edge = ac) (edges_of g x)) ++ pq')
      as Hchild.
    { intros edge [Hin Hac]. apply elem_of_app. left.
      apply elem_of_reverse, list_elem_of_fmap. exists edge. split; [done|].
      apply list_elem_of_filter. by rewrite Hg. }
    assert (∀ y, y ∈ reverse ((fun edge => (d + distance edge, h + 1, dest edge, p ++ [dest edge])) <$>
                         filter (fun edge => aircraft edge = ac) (edges_of g x)) →
                 key_le (d, h) (entry_key y)) as Hkids.
    { intros y (edge & -> & [Hac Hin]%list_elem_of_filter)%elem_of_reverse%list_elem_of_fmap.
      rewrite Hg in Hin. pose proof (Hnonneg x edge (conj Hin Hac)).
      unfold key_le, entry_key. simpl. lia. }
    assert (∀ y, y ∈ pq' → y ∈ pq) as Hsub.
    { intros y Hy. rewrite <-Hperm. by apply list_elem_of_further. }
    assert ((d, h, x, p) ∈ pq) as Hm.
    { rewrite <-Hperm. apply list_elem_of_here. }
    split; simpl.
    + intros k. by rewrite getitem_edges_of.
    + intros z kz y Hz Hy. destruct (decide (x = z)) as [<-|Hne].
      * rewrite lookup_insert_eq in Hz. injection Hz as <-.
        apply elem_of_app in Hy as [Hy|Hy]; [by apply Hkids|].
        apply (Hmin y). by apply Hsub.
      * rewrite lookup_insert_ne in Hz by done.
        apply elem_of_app in Hy as [Hy|Hy]; [|by apply (Hmono z), Hsub].
        apply key_le_trans with (d, h); [|by apply Hkids].
        by apply (Hmono z kz (d, h, x, p)).
    + rewrite dom_insert_L.
      destruct Hstart as [?|(y & Hy & Ha & Hk)]; [left; by apply elem_of_union_r|].
      rewrite <-Hperm in Hy. apply elem_of_cons in Hy as [->|Hy].
      * left. apply elem_of_union_l, elem_of_singleton. by rewrite <-Ha.
      * right. exists y. split; [|done]. apply elem_of_app. by right.
    + rewrite dom_insert_L. intros z edge Hz Hf.
      apply elem_of_union in Hz as [->%elem_of_singleton|Hz].
      * right. exists (d + distance edge, h + 1, dest edge, p ++ [dest edge]).
        split; [by apply Hchild|]. split; [done|].
        intros D n Hr.
        destruct (ld_frontier _ _ _ _ Hinv Hr) as [?|(y & Hy & Hle)]; [done|].
        simpl in Hy. apply Hmin in Hy.
        pose proof (key_le_trans _ _ _ Hy Hle) as Hdh.
        unfold key_le, entry_key in *. simpl in *. lia.
      * destruct (Hsucc z edge Hz Hf) as [?|(y & Hy & Ha & Hk)];
          [left; by apply elem_of_union_r|].
        rewrite <-Hperm in Hy. apply elem_of_cons in Hy as [->|Hy].
        -- left. apply elem_of_union_l, elem_of_singleton. by rewrite <-Ha.
        -- right. exists y. split; [|done]. apply elem_of_app. by right.
    + rewrite dom_insert_L. intros [->%elem_of_singleton|?]%elem_of_union; done.
Qed.

(** The entry returned has the least key among all the ways to reach the end. *)
Lemma ld_inv_found st d h p pq' :
  ld_inv adj ac s e st → heapq.heappop st.1.2 = Some ((d, h, e, p), pq') →
  ∀ D n, reach adj ac s e D n → key_le (d, h) (D, Z.of_nat n).
Proof.
  intros Hinv [Hperm Hmin]%heappop_Some D n Hr.
  destruct (ld_frontier _ _ _ _ Hinv Hr) as [Hv|(y & Hy & Hle)].
  - by destruct (ld_end _ _ _ _ _ Hinv).
  - apply Hmin in Hy. by apply key_le_trans with (entry_key y).
Qed.

End LdOptimal.

(** ** Results of [fewest_legs] *)

Lemma fewest_legs_final g s e ac fuel r :
  fewest_legs fuel g s e ac = Some r →
  ∃ st, bfs_inv (edges_of g) ac s e st ∧ fewest_legs_body e ac st = inr r.
Proof.
  apply (while_inv _ (bfs_inv (edges_of g) ac s e)).
  - apply bfs_inv_step.
  - by apply bfs_inv_init.
Qed.

(** C2. When [fewest_legs] returns a path, the path leads from the start
    to the end along edges of the requested aircraft, and no such route
    has fewer legs. *)
Theorem fewest_legs_shortest g s e ac fuel p g' :
  fewest_legs fuel g s e ac = Some (Some p, g') →
  ∃ es, route g ac s e p es ∧
    ∀ p' es', route g ac s e p' es' → (length es ≤ length es')%nat.
Proof.
  intros (st & Hinv & Hbody)%fewest_legs_final.
  destruct (bfs_inv_found _ _ _ _ _ _ _ Hinv Hbody) as [(Hh & Hl & es & Hp) Hmin].
  exists es. split; [done|]. intros p' es' Hr%route_reach.
  apply Hmin in Hr. apply path_edges_length in Hp. lia.
Qed.

(** ** Results of [least_distance] *)

Lemma least_distance_valid g s e ac fuel D p g' :
  least_distance fuel g s e ac = Some (Some (D, p), g') →
  ∃ es, route g ac s e p es ∧ D = total_distance es.
Proof.
  intros (st & [_ Hvalid] & Hbody)%(while_inv _ (ld_valid (edges_of g) ac s)).
  - destruct st as [[g1 pq] visited].
    apply least_distance_body_inr in Hbody
      as [[_ [=]]|(d & h & p0 & pq' & Hpop & [= <- <- <-])].
    apply heappop_Some in Hpop as [Hperm _].
    destruct (Hvalid (D, h, e, p)) as (Hh & Hl & es & Hp & [= -> ->]).
    { simpl. rewrite <-Hperm. apply list_elem_of_here. }
    by exists es.
  - apply ld_valid_step.
  - by apply ld_valid_init.
Qed.

Lemma distances_from_flies g ac lo :
  distances_from lo g ac → ∀ z edge, flies (edges_of g) ac z edge → lo ≤ distance edge.
Proof. intros H z edge [Hin Hac]. by apply (H z). Qed.

Lemma distances_from_weaken g ac lo lo' :
  lo' ≤ lo → distances_from lo g ac → distances_from lo' g ac.
Proof. intros Hle H k edge Hin Hac. specialize (H k edge Hin Hac). lia. Qed.

(** C1, for graphs without negative distances.  When [least_distance]
    returns [(D, p)], [p] leads from the start to the end along edges of
    the requested aircraft, [D] is the sum of their distances, no such
    route has a smaller total, and none of total [D] has fewer legs. *)
Theorem least_distance_shortest g s e ac :
  distances_from 0 g ac → least_distance_optimal g s e ac.
Proof.
  intros Hdist D p (fuel & g' & Hrun).
  pose proof (distances_from_flies _ _ _ Hdist) as Hnn.
  apply (while_inv _ (fun st => ld_valid (edges_of g) ac s st ∧
                                ld_inv (edges_of g) ac s e st)) in Hrun
    as (st & [[_ Hvalid] Hinv] & Hbody).
  - destruct st as [[g1 pq] visited].
    apply least_distance_body_inr in Hbody
      as [[_ [=]]|(d & h & p0 & pq' & Hpop & [= <- <- <-])].
    pose proof (ld_inv_found _ _ _ _ Hnn _ _ _ _ _ Hinv Hpop) as Hle.
    apply heappop_Some in Hpop as [Hperm _].
    destruct (Hvalid (D, h, e, p)) as (Hh & Hl & es & Hp & [= -> ->]).
    { simpl. rewrite <-Hperm. apply list_elem_of_here. }
    exists es. split; [done|]. split; [done|].
    intros p' es' Hr%route_reach. apply Hle in Hr.
    unfold key_le in Hr. simpl in Hr. lia.
  - intros st st' [? ?] Hb. split; [by eapply ld_valid_step|by eapply ld_inv_step].
  - split; [by apply ld_valid_init|by apply ld_inv_init].
Qed.

(** C1 as stated, for every graph, fails: with the edges A→D (5),
    A→B (10) and B→D (-20), [least_distance] returns [(5, [A, D])] while
    the route A, B, D has total distance -10. *)
Lemma least_distance_negative_not_shortest :
  ¬ least_distance_optimal negative_graph "A" "D" "X".
Proof.
  intros H. destruct (H 5 ["A"; "D"]%string) as (es & _ & _ & Hmin).
  { exists 2%nat, negative_graph. vm_compute. reflexivity. }
  destruct (Hmin ["A"; "B"; "D"]%string [mkEdge "B" "X" 10; mkEdge "D" "X" (-20)])
    as [Hle _]; [|simpl in Hle; lia].
  split; [done|]. split; [done|].
  apply path_edges_cons; [|done|apply path_edges_cons; [|done|apply path_edges_one]].
  - split; [|done]. vm_compute. apply list_elem_of_further, list_elem_of_here.
  - split; [|done]. vm_compute. apply list_elem_of_here.
Qed.

(** ** The graph across a search *)

Lemma graph_grown_refl g : graph_grown g g.
Proof. intros k. by left. Qed.

Lemma graph_grown_getitem g g' x :
  graph_grown g g' → graph_grown g (getitem g' x).2.
Proof.
  intros H k. rewrite getitem_lookup. case_decide as Hk; [|apply H].
  destruct Hk as [-> Hx]. destruct (H x) as [Heq|[? ?]]; [|congruence].
  right. split; [congruence|done].
Qed.

Lemma graph_grown_edges_of g g' k : graph_grown g g' → edges_of g' k = edges_of g k.
Proof. intros H. unfold edges_of. by destruct (H k) as [->|[-> ->]]. Qed.

Lemma graph_grown_lookup g g' k l : graph_grown g g' → g !! k = Some l → g' !! k = Some l.
Proof. intros H Hk. destruct (H k) as [->|[? ?]]; congruence. Qed.

Lemma fewest_legs_grown g s e ac fuel r g' :
  fewest_legs fuel g s e ac = Some (r, g') → graph_grown g g'.
Proof.
  intros Hrun.
  apply (while_inv _ (fun st : BfsState => graph_grown g st.1.1)) in Hrun
    as ([[g1 queue] visited] & Hinv & Hbody); simpl in *.
  - by apply fewest_legs_body_inr in Hbody as [[_ [= _ <-]]|(? & ? & _ & [= _ <-])].
  - intros [[g1 queue] visited] st' Hinv Hbody. simpl in *.
    apply fewest_legs_body_inl in Hbody
      as (x & p & q & _ & _ & [[_ ->]|[_ ->]]); simpl; [done|].
    by apply graph_grown_getitem.
  - apply graph_grown_refl.
Qed.

Lemma least_distance_grown g s e ac fuel r g' :
  least_distance fuel g s e ac = Some (r, g') → graph_grown g g'.
Proof.
  intros Hrun.
  apply (while_inv _ (fun st : LdState => graph_grown g st.1.1)) in Hrun
    as ([[g1 pq] visited] & Hinv & Hbody); simpl in *.
  - by apply least_distance_body_inr in Hbody
      as [[_ [= _ <-]]|(? & ? & ? & ? & _ & [= _ <-])].
  - intros [[g1 pq] visited] st' Hinv Hbody. simpl in *.
    apply least_distance_body_inl in Hbody
      as (d & h & x & p & pq' & _ & _ & [[_ ->]|[_ ->]]); simpl; [done|].
    by apply graph_grown_getitem.
  - apply graph_grown_refl.
Qed.

(** The keys that a search adds. *)

Lemma fewest_legs_added g s e ac fuel r g' k :
  fewest_legs fuel g s e ac = Some (r, g') →
  g !! k = None → is_Some (g' !! k) →
  k ≠ e ∧ ∃ p es, route g ac s k p es.
Proof.
  intros Hrun Hk.
  apply (while_inv _ (fun st : BfsState =>
           bfs_inv (edges_of g) ac s e st ∧
           (is_Some (st.1.1 !! k) → k ≠ e ∧ ∃ p es, route g ac s k p es))) in Hrun
    as ([[g1 queue] visited] & [_ Hadd] & Hbody); simpl in *.
  - by apply fewest_legs_body_inr in Hbody as [[_ [= _ <-]]|(? & ? & _ & [= _ <-])].
  - intros [[g1 queue] visited] st' [Hinv Hadd] Hbody.
    split; [by eapply bfs_inv_step|]. simpl in *.
    apply fewest_legs_body_inl in Hbody
      as (x & p & q & -> & Hxe & [[_ ->]|[_ ->]]); simpl; [done|].
    rewrite getitem_lookup. case_decide as Hc; [|done].
    destruct Hc as [-> _]. intros _. split; [done|].
    destruct (bfs_valid _ _ _ _ _ Hinv x p) as (Hh & Hl & es & Hp);
      [apply list_elem_of_here|].
    by exists p, es.
  - split; [by apply bfs_inv_init|]. simpl. rewrite Hk. by intros [? ?].
Qed.

Lemma least_distance_added g s e ac fuel r g' k :
  least_distance fuel g s e ac = Some (r, g') →
  g !! k = None → is_Some (g' !! k) →
  k ≠ e ∧ ∃ p es, route g ac s k p es.
Proof.
  intros Hrun Hk.
  apply (while_inv _ (fun st : LdState =>
           ld_valid (edges_of g) ac s st ∧
           (is_Some (st.1.1 !! k) → k ≠ e ∧ ∃ p es, route g ac s k p es))) in Hrun
    as ([[g1 pq] visited] & [_ Hadd] & Hbody); simpl in *.
  - by apply least_distance_body_inr in Hbody
      as [[_ [= _ <-]]|(? & ? & ? & ? & _ & [= _ <-])].
  - intros [[g1 pq] visited] st' [Hvalid Hadd] Hbody.
    split; [by eapply ld_valid_step|]. simpl in *.
    apply least_distance_body_inl in Hbody
      as (d & h & x & p & pq' & Hpop & Hxe & [[_ ->]|[_ ->]]); simpl; [done|].
    rewrite getitem_lookup. case_decide as Hc; [|done].
    destruct Hc as [-> _]. intros _. split; [done|].
    apply heappop_Some in Hpop as [Hperm _].
    destruct Hvalid as [_ Hvalid].
    destruct (Hvalid (d, h, x, p)) as (Hh & Hl & es & Hp & _).
    { simpl. rewrite <-Hperm. apply list_elem_of_here. }
    by exists p, es.
  - split; [by apply ld_valid_init|]. simpl. rewrite Hk. by intros [? ?].
Qed.

(** C3, as the code has it.  Either search leaves every adjacency list
    that was stored before the call stored under its key, unchanged; a
    key that the call adds holds the empty list, and it is the key of an
    airport, other than the destination, that the search reached from
    the start along edges of the aircraft. *)
Theorem searches_keep_adjacency_lists g s e ac fuel g' :
  (∃ r, fewest_legs fuel g s e ac = Some (r, g')) ∨
  (∃ r, least_distance fuel g s e ac = Some (r, g')) →
  graph_grown g g' ∧
  ∀ k, g !! k = None → is_Some (g' !! k) →
    k ≠ e ∧ ∃ p es, route g ac s k p es.
Proof.
  intros [[r Hrun]|[r Hrun]].
  - split; [by eapply fewest_legs_grown|].
    intros k. by eapply fewest_legs_added.
  - split; [by eapply least_distance_grown|].
    intros k. by eapply least_distance_added.
Qed.

(** C3 as stated fails: on the tie-break graph, [fewest_legs] from B to A
    expands D, which has no adjacency entry, and the read stores an empty
    list under the new key D. *)
Lemma fewest_legs_adds_key :
  ¬ graph_unchanged_by_searches tie_graph "B" "A" "X".
Proof.
  intros [H _]. specialize (H 3%nat None (<["D"%string := []]> tie_graph)).
  assert (<["D"%string := []]> tie_graph = tie_graph) as Heq.
  { apply H. vm_compute. reflexivity. }
  apply (f_equal (fun g : Graph => g !! "D"%string)) in Heq.
  vm_compute in Heq. discriminate.
Qed.

(** ** Degenerate and concrete queries *)

(** C5. With the start as the end, [fewest_legs] returns [[s]] and
    [least_distance] returns [(0, [s])] in the first iteration, whatever
    the graph holds. *)
Theorem start_is_end g s ac fuel :
  fewest_legs (S fuel) g s s ac = Some (Some [s], g) ∧
  least_distance (S fuel) g s s ac = Some (Some (0, [s]), g).
Proof.
  unfold fewest_legs, least_distance, fewest_legs_body, least_distance_body.
  simpl. by rewrite !decide_True.
Qed.

(** C6. On the graph A→B (100), B→D (100), A→D (200), all of aircraft X,
    [least_distance] from A to D returns [(200, [A, D])]: on the tie at
    200 the one-leg route wins; the order in which the two edges out of A
    were added plays no part. *)
Theorem tie_break_prefers_fewer_legs fuel :
  least_distance (3 + fuel) tie_graph "A" "D" "X"
    = Some (Some (200, ["A"; "D"]%string), tie_graph) ∧
  least_distance (3 + fuel) tie_graph' "A" "D" "X"
    = Some (Some (200, ["A"; "D"]%string), tie_graph').
Proof. split; vm_compute; reflexivity. Qed.

(** ** Termination *)

Lemma pending_at_mono ac (visited : gset string) x kl :
  (pending_at ac ({[x]} ∪ visited) kl ≤ pending_at ac visited kl)%nat.
Proof.
  unfold pending_at. destruct (decide (kl.1 ∈ visited)) as [Hk|Hk].
  - by rewrite decide_True by (by apply elem_of_union_r).
  - case_decide; lia.
Qed.

Lemma pending_list_mono ac (visited : gset string) x L :
  (sum_list_with (pending_at ac ({[x]} ∪ visited)) L
   ≤ sum_list_with (pending_at ac visited) L)%nat.
Proof.
  induction L as [|kl L IH]; simpl; [done|].
  pose proof (pending_at_mono ac visited x kl). lia.
Qed.

Lemma pending_list_visit ac (visited : gset string) x l L :
  (x, l) ∈ L → x ∉ visited →
  (length (filter (fun edge => aircraft edge = ac) l)
   + sum_list_with (pending_at ac ({[x]} ∪ visited)) L
   ≤ sum_list_with (pending_at ac visited) L)%nat.
Proof.
  intros Hin Hx. induction L as [|kl L IH]; simpl; [by apply elem_of_nil in Hin|].
  apply elem_of_cons in Hin as [<-|Hin].
  - pose proof (pending_list_mono ac visited x L).
    unfold pending_at at 1 3. simpl.
    rewrite decide_True by (by apply elem_of_union_l, elem_of_singleton).
    rewrite decide_False by done. lia.
  - specialize (IH Hin). pose proof (pending_at_mono ac visited x kl). lia.
Qed.

(** Finalizing an airport takes its edges off the pending ones. *)
Lemma pending_visit g ac (visited : gset string) x :
  x ∉ visited →
  (length (filter (fun edge => aircraft edge = ac) (edges_of g x))
   + pending g ac ({[x]} ∪ visited) ≤ pending g ac visited)%nat.
Proof.
  intros Hx. unfold edges_of, pending. destruct (g !! x) as [l|] eqn:Hl; simpl.
  - apply pending_list_visit; [|done]. by apply elem_of_map_to_list.
  - apply pending_list_mono.
Qed.

(** [fewest_legs] returns within [2 + edge_count g ac] iterations:
    every iteration takes an entry off the queue, and an airport adds its
    edges to the queue only the first time it is taken off. *)
Lemma fewest_legs_terminates g s e ac :
  ∃ r, fewest_legs (2 + edge_count g ac) g s e ac = Some r.
Proof.
  apply (while_measure _
           (fun st : BfsState => ∀ k, edges_of st.1.1 k = edges_of g k)
           (fun st : BfsState => (length st.1.2 + pending g ac st.2)%nat)).
  - intros [[g1 queue] visited] st' Hinv Hbody. simpl in *.
    apply fewest_legs_body_inl in Hbody
      as (x & p & q & -> & _ & [[_ ->]|[Hx ->]]); simpl.
    + split; [done|lia].
    + split; [intros k; by rewrite getitem_edges_of|].
      rewrite length_app, length_fmap, Hinv.
      pose proof (pending_visit g ac visited x Hx). lia.
  - done.
  - simpl. unfold edge_count. lia.
Qed.

(** Without negative distances [least_distance] returns within the same
    number of iterations: an airport is finalized once. *)
Lemma least_distance_terminates g s e ac :
  distances_from 0 g ac →
  ∃ r, least_distance (2 + edge_count g ac) g s e ac = Some r.
Proof.
  intros Hdist. pose proof (distances_from_flies _ _ _ Hdist) as Hnn.
  apply (while_measure _ (ld_inv (edges_of g) ac s e)
           (fun st : LdState => (length st.1.2 + pending g ac (dom st.2))%nat)).
  - intros [[g1 pq] visited] st' Hinv Hbody.
    split; [by eapply ld_inv_step|]. simpl.
    apply least_distance_body_inl in Hbody
      as (d & h & x & p & pq' & Hpop & _ & [[_ ->]|[Hskip ->]]);
      apply heappop_Some in Hpop as [Hperm _]; simpl.
    + rewrite <-Hperm. simpl. lia.
    + pose proof (ld_inv_not_skipped _ _ _ _ _ _ _ (d, h, x, p) _ Hinv Hperm Hskip) as Hx.
      unfold entry_airport in Hx. simpl in Hx.
      rewrite <-Hperm, dom_insert_L, length_app, length_reverse, length_fmap.
      rewrite (ld_graph _ _ _ _ _ Hinv). simpl.
      pose proof (pending_visit g ac (dom visited) x Hx). lia.
  - by apply ld_inv_init.
  - simpl. unfold edge_count. rewrite dom_empty_L. lia.
Qed.

(** C7. On a graph whose distances are all strictly positive both
    searches terminate, within [2 + edge_count g ac] iterations of their
    loops, the number of edges of the requested aircraft bounding the
    entries that the frontier ever receives. *)
Theorem searches_terminate g s e ac :
  distances_from 1 g ac →
  (∃ r, fewest_legs (2 + edge_count g ac) g s e ac = Some r) ∧
  (∃ r, least_distance (2 + edge_count g ac) g s e ac = Some r).
Proof.
  intros Hpos. split.
  - apply fewest_legs_terminates.
  - apply least_distance_terminates. by apply distances_from_weaken with 1.
Qed.

(** ** Determinism *)

(** Two loops whose bodies agree step by step agree on what they return. *)
Lemma while_sim {St1 St2 R1 R2 : Type}
    (body1 : St1 → St1 + R1) (body2 : St2 → St2 + R2)
    (Rs : St1 → St2 → Prop) (Rr : R1 → R2 → Prop) :
  (∀ s1 s2, Rs s1 s2 →
     match body1 s1, body2 s2 with
     | inl a, inl b => Rs a b
     | inr a, inr b => Rr a b
     | _, _ => False
     end) →
  ∀ fuel s1 s2, Rs s1 s2 →
    match while body1 fuel s1, while body2 fuel s2 with
    | Some a, Some b => Rr a b
    | None, None => True
    | _, _ => False
    end.
Proof.
  intros Hstep. induction fuel as [|fuel IH]; intros s1 s2 Hs; simpl; [done|].
  specialize (Hstep s1 s2 Hs).
  destruct (body1 s1), (body2 s2); try done. by apply IH.
Qed.

(** The searches see the graph through its reads only: graphs with the
    same reads give the same value. *)
Lemma fewest_legs_reads g1 g2 s e ac fuel :
  (∀ k, edges_of g1 k = edges_of g2 k) →
  fst <$> fewest_legs fuel g1 s e ac = fst <$> fewest_legs fuel g2 s e ac.
Proof.
  intros Hg.
  pose proof (while_sim (fewest_legs_body e ac) (fewest_legs_body e ac)
    (fun st1 st2 : BfsState =>
       (∀ k, edges_of st1.1.1 k = edges_of st2.1.1 k) ∧
       st1.1.2 = st2.1.2 ∧ st1.2 = st2.2)
    (fun r1 r2 => r1.1 = r2.1)) as Hsim.
  unfold fewest_legs.
  specialize (Hsim ltac:(
    intros [[ga q] v] [[gb q'] v'] (Hgab & Hq & Hv); simpl in *; subst q' v';
    unfold fewest_legs_body;
    destruct q as [|[x p] q]; [done|];
    destruct (decide (x = e)); [done|];
    destruct (decide (x ∈ v)); [done|];
    pose proof (getitem_fst ga x) as Ha; pose proof (getitem_fst gb x) as Hb;
    pose proof (getitem_edges_of ga x) as Ha'; pose proof (getitem_edges_of gb x) as Hb';
    destruct (getitem ga x) as [ea ga'], (getitem gb x) as [eb gb']; simpl in *;
    subst ea eb; rewrite Hgab; split; [|done];
    intros k; by rewrite Ha', Hb') fuel (g1, [(s, [s])], ∅) (g2, [(s, [s])], ∅)).
  destruct (while _ fuel (g1, _, _)), (while _ fuel (g2, _, _)); simpl in *;
    try (by exfalso; apply Hsim); try done.
  f_equal. by apply Hsim.
Qed.

Lemma least_distance_reads g1 g2 s e ac fuel :
  (∀ k, edges_of g1 k = edges_of g2 k) →
  fst <$> least_distance fuel g1 s e ac = fst <$> least_distance fuel g2 s e ac.
Proof.
  intros Hg.
  pose proof (while_sim (least_distance_body e ac) (least_distance_body e ac)
    (fun st1 st2 : LdState =>
       (∀ k, edges_of st1.1.1 k = edges_of st2.1.1 k) ∧
       st1.1.2 = st2.1.2 ∧ st1.2 = st2.2)
    (fun r1 r2 => r1.1 = r2.1)) as Hsim.
  unfold least_distance.
  specialize (Hsim ltac:(
    intros [[ga q] v] [[gb q'] v'] (Hgab & Hq & Hv); simpl in *; subst q' v';
    unfold least_distance_body;
    destruct (heapq.heappop q) as [[[[[d h] x] p] pq']|]; [|done];
    destruct (decide (x = e)); [done|];
    destruct (ld_skip v x d h); [done|];
    pose proof (getitem_fst ga x) as Ha; pose proof (getitem_fst gb x) as Hb;
    pose proof (getitem_edges_of ga x) as Ha'; pose proof (getitem_edges_of gb x) as Hb';
    destruct (getitem ga x) as [ea ga'], (getitem gb x) as [eb gb']; simpl in *;
    subst ea eb; rewrite Hgab; split; [|done];
    intros k; by rewrite Ha', Hb')
    fuel (g1, [(0, 0, s, [s])], ∅) (g2, [(0, 0, s, [s])], ∅)).
  destruct (while _ fuel (g1, _, _)), (while _ fuel (g2, _, _)); simpl in *;
    try (by exfalso; apply Hsim); try done.
  f_equal. by apply Hsim.
Qed.

(** C8. Both searches are functions of their arguments: two runs on the
    same graph return the same value and leave the same graph, and a
    second call on the graph as the first call left it returns the same
    value again. *)
Theorem searches_deterministic g s e ac :
  (∀ fuel1 fuel2 r1 r2,
     fewest_legs fuel1 g s e ac = Some r1 →
     fewest_legs fuel2 g s e ac = Some r2 → r1 = r2) ∧
  (∀ fuel1 fuel2 r1 r2,
     least_distance fuel1 g s e ac = Some r1 →
     least_distance fuel2 g s e ac = Some r2 → r1 = r2) ∧
  (∀ fuel1 fuel2 r1 g1 r2 g2,
     fewest_legs fuel1 g s e ac = Some (r1, g1) →
     fewest_legs fuel2 g1 s e ac = Some (r2, g2) → r1 = r2) ∧
  (∀ fuel1 fuel2 r1 g1 r2 g2,
     least_distance fuel1 g s e ac = Some (r1, g1) →
     least_distance fuel2 g1 s e ac = Some (r2, g2) → r1 = r2).
Proof.
  split; [|split; [|split]].
  - intros fuel1 fuel2 r1 r2. apply while_det.
  - intros fuel1 fuel2 r1 r2. apply while_det.
  - intros fuel1 fuel2 r1 g1 r2 g2 H1 H2.
    pose proof (fewest_legs_grown _ _ _ _ _ _ _ H1) as Hgr.
    pose proof (fewest_legs_reads g1 g s e ac fuel2
                  (fun k => graph_grown_edges_of _ _ k Hgr)) as Hread.
    rewrite H2 in Hread. simpl in Hread.
    destruct (fewest_legs fuel2 g s e ac) as [[r2' g2']|] eqn:H2'; [|done].
    injection Hread as ->.
    by injection (while_det _ _ _ _ _ _ H1 H2') as ->.
  - intros fuel1 fuel2 r1 g1 r2 g2 H1 H2.
    pose proof (least_distance_grown _ _ _ _ _ _ _ H1) as Hgr.
    pose proof (least_distance_reads g1 g s e ac fuel2
                  (fun k => graph_grown_edges_of _ _ k Hgr)) as Hread.
    rewrite H2 in Hread. simpl in Hread.
    destruct (least_distance fuel2 g s e ac) as [[r2' g2']|] eqn:H2'; [|done].
    injection Hread as ->.
    by injection (while_det _ _ _ _ _ _ H1 H2') as ->.
Qed.

(** ** The no-route value *)

Lemma fewest_legs_None_no_route g s e ac :
  fewest_legs_returns g s e ac None → no_route g ac s e.
Proof.
  intros (fuel & g' & (st & Hinv & Hbody)%fewest_legs_final) (p & es & Hr%route_reach).
  by apply (bfs_inv_none _ _ _ _ _ _ Hinv Hbody) in Hr.
Qed.

Lemma fewest_legs_Some_route g s e ac p :
  fewest_legs_returns g s e ac (Some p) → ∃ es, route g ac s e p es.
Proof.
  intros (fuel & g' & (st & Hinv & Hbody)%fewest_legs_final).
  destruct (bfs_inv_found _ _ _ _ _ _ _ Hinv Hbody) as [(Hh & Hl & es & Hp) _].
  by exists es.
Qed.

Lemma fewest_legs_no_route_None g s e ac :
  no_route g ac s e → fewest_legs_returns g s e ac None.
Proof.
  intros Hno. destruct (fewest_legs_terminates g s e ac) as [[[p|] g'] Hrun].
  - destruct Hno. exists p. apply fewest_legs_Some_route. by eexists _, _.
  - by eexists _, _.
Qed.

Lemma least_distance_None_no_route g s e ac :
  least_distance_returns g s e ac None → no_route g ac s e.
Proof.
  intros (fuel & g' & Hrun) (p & es & Hr%route_reach).
  apply (while_inv _ (ld_cover (edges_of g) ac s e)) in Hrun
    as ([[g1 pq] visited] & Hc & Hbody);
    [|by apply ld_cover_step|by apply ld_cover_init].
  apply least_distance_body_inr in Hbody as [[-> _]|(? & ? & ? & ? & _ & [=])].
  destruct (ld_cover_reach _ _ _ _ _ _ _ _ Hc Hr) as [Hv|Hne]; [|done].
  by destruct (ldc_end _ _ _ _ _ Hc).
Qed.

Lemma least_distance_Some_route g s e ac D p :
  least_distance_returns g s e ac (Some (D, p)) →
  ∃ es, route g ac s e p es ∧ D = total_distance es.
Proof. intros (fuel & g' & Hrun). by eapply least_distance_valid. Qed.

Lemma least_distance_no_route_None g s e ac :
  distances_from 0 g ac → no_route g ac s e → least_distance_returns g s e ac None.
Proof.
  intros Hnn Hno.
  destruct (least_distance_terminates g s e ac Hnn) as [[[[D p]|] g'] Hrun].
  - destruct Hno. exists p.
    destruct (least_distance_Some_route g s e ac D p) as (es & ? & _); [|by exists es].
    by eexists _, _.
  - by eexists _, _.
Qed.

Lemma route_nonempty g ac s e es : ¬ route g ac s e [] es.
Proof. by intros [? _]. Qed.

(** With no edge of the aircraft out of the start, the second iteration
    finds the frontier empty. *)
Lemma no_departure_None g s e ac :
  s ≠ e → filter (fun edge => aircraft edge = ac) (edges_of g s) = [] →
  fewest_legs 2 g s e ac = Some (None, (getitem g s).2) ∧
  least_distance 2 g s e ac = Some (None, (getitem g s).2).
Proof.
  intros Hse Hnone. split.
  - unfold fewest_legs. simpl.
    rewrite decide_False, decide_False by done.
    pose proof (getitem_fst g s) as Hfst. destruct (getitem g s) as [edges g'].
    simpl in *. subst edges. by rewrite bfs_expand_eq, Hnone.
  - unfold least_distance. simpl. unfold ld_skip. rewrite lookup_empty.
    rewrite decide_False by done.
    pose proof (getitem_fst g s) as Hfst. destruct (getitem g s) as [edges g'].
    simpl in *. subst edges. by rewrite ld_expand_eq, Hnone.
Qed.

(** C4, as the code has it.  For [s ≠ e]: [fewest_legs] returns [None]
    exactly when the graph has no route for the aircraft; [least_distance]
    returns [None] only when there is none, and does return [None] then
    provided no distance is negative; neither returns an empty path; and
    when no edge of the aircraft leaves [s] both return [None]. *)
Theorem no_route_value g s e ac :
  s ≠ e →
  (fewest_legs_returns g s e ac None ↔ no_route g ac s e) ∧
  (least_distance_returns g s e ac None → no_route g ac s e) ∧
  (distances_from 0 g ac → no_route g ac s e → least_distance_returns g s e ac None) ∧
  ¬ fewest_legs_returns g s e ac (Some []) ∧
  (∀ D, ¬ least_distance_returns g s e ac (Some (D, []))) ∧
  (filter (fun edge => aircraft edge = ac) (edges_of g s) = [] →
   fewest_legs_returns g s e ac None ∧ least_distance_returns g s e ac None).
Proof.
  intros Hse. repeat split.
  - apply fewest_legs_None_no_route.
  - apply fewest_legs_no_route_None.
  - apply least_distance_None_no_route.
  - apply least_distance_no_route_None.
  - intros (es & Hr)%fewest_legs_Some_route. by apply route_nonempty in Hr.
  - intros D (es & Hr & _)%least_distance_Some_route. by apply route_nonempty in Hr.
  - exists 2%nat, (getitem g s).2. by apply no_departure_None.
  - exists 2%nat, (getitem g s).2. by apply no_departure_None.
Qed.

(** The graph with the single edge A→A of distance -1 has no route from A
    to B, and [least_distance] from A to B never returns: each iteration
    pops A with a smaller distance than recorded and pushes A again. *)
Lemma negative_loop_diverges fuel :
  least_distance fuel negative_loop_graph "A" "B" "X" = None.
Proof.
  unfold least_distance.
  assert (∀ d h p (visited : gmap string (Z * Z)),
            (∀ bd bh, visited !! "A"%string = Some (bd, bh) → d < bd) →
            while (least_distance_body "B" "X") fuel
              (negative_loop_graph, [(d, h, "A"%string, p)], visited) = None) as Hloop.
  { induction fuel as [|fuel IH]; intros d h p visited Hv; [done|].
    rewrite while_S.
    assert (least_distance_body "B" "X"
              (negative_loop_graph, [(d, h, "A"%string, p)], visited)
            = inl (negative_loop_graph,
                   [(d + -1, h + 1, "A"%string, p ++ ["A"%string])],
                   <["A"%string := (d, h)]> visited)) as ->.
    { unfold least_distance_body. simpl heapq.heappop. cbv iota beta.
      rewrite decide_False by done.
      assert (ld_skip visited "A" d h = false) as ->.
      { unfold ld_skip. destruct (visited !! "A"%string) as [[bd bh]|] eqn:Hl; [|done].
        specialize (Hv bd bh eq_refl). repeat case_decide; try done; lia. }
      replace (getitem negative_loop_graph "A")
        with ([mkEdge "A" "X" (-1)], negative_loop_graph) by (vm_compute; reflexivity).
      unfold ld_expand. simpl. done. }
    apply IH. intros bd bh. rewrite lookup_insert_eq. intros [= <- <-]. lia. }
  apply Hloop. intros bd bh. by rewrite lookup_empty.
Qed.

Lemma negative_loop_no_route : no_route negative_loop_graph "X" "A" "B".
Proof.
  intros (p & es & Hh & Hl & Hp).
  assert (∀ x edge, flies (edges_of negative_loop_graph) "X" x edge → dest edge = "A"%string)
    as Hdest.
  { intros x edge [Hin _]. unfold edges_of in Hin.
    replace negative_loop_graph
      with ({["A"%string := [mkEdge "A" "X" (-1)]]} : Graph) in Hin
      by (vm_compute; reflexivity).
    destruct (decide (x = "A"%string)) as [->|Hne].
    - rewrite lookup_singleton_eq in Hin. simpl in Hin.
      by apply list_elem_of_singleton in Hin as ->.
    - rewrite lookup_singleton_ne in Hin by done. by apply elem_of_nil in Hin. }
  assert (∀ p es, path_edges (edges_of negative_loop_graph) "X" p es →
            head p = Some "A"%string → last p = Some "A"%string) as Hstay.
  { clear -Hdest. induction 1 as [x|x y edge p es Hf Hd Hp IH]; [done|].
    intros _. apply Hdest in Hf. rewrite Hf in Hd. subst y. by apply IH. }
  apply Hstay in Hp; [|done]. rewrite Hl in Hp. discriminate.
Qed.

(** C4 as stated fails for [least_distance]: on that graph there is no
    route from A to B, yet [None] is never returned. *)
Lemma least_distance_no_route_not_None :
  ¬ (least_distance_returns negative_loop_graph "A" "B" "X" None ↔
     no_route negative_loop_graph "X" "A" "B").
Proof.
  intros [_ H]. destruct (H negative_loop_no_route) as (fuel & g' & Hrun).
  by rewrite negative_loop_diverges in Hrun.
Qed.

(** ** Building the graph *)

Lemma add_route_lookup g dep dst ac dist k :
  add_route g dep dst ac dist !! k =
  if decide (k = dep) then Some (edges_of g dep ++ [mkEdge dst ac dist]) else g !! k.
Proof.
  unfold add_route. pose proof (getitem_fst g dep) as Hl.
  pose proof (getitem_lookup g dep k) as Hg.
  destruct (getitem g dep) as [l g1]. simpl in *. subst l.
  destruct (decide (k = dep)) as [->|Hne].
  - by rewrite lookup_insert_eq.
  - rewrite lookup_insert_ne by done. rewrite Hg.
    rewrite decide_False; [done|]. by intros [? _].
Qed.

Lemma add_routes_lookup g routes d :
  add_routes g routes !! d =
  match routes_from d routes with
  | [] => g !! d
  | rs => Some (edges_of g d ++ (edge_of_route <$> rs))
  end.
Proof.
  unfold add_routes, routes_from. revert g.
  induction routes as [|r routes IH]; intros g; [done|].
  simpl. rewrite IH, filter_cons. unfold edges_of at 1.
  rewrite !add_route_lookup.
  destruct (decide (Departure r = d)) as [<-|Hne].
  - rewrite decide_True by done. simpl.
    destruct (filter _ routes); simpl; [done|].
    by rewrite <-app_assoc.
  - rewrite decide_False by done.
    by destruct (filter _ routes).
Qed.

(** C9. [add_route] appends the edge to the list of its departure,
    starting from the empty list when the departure has no entry yet, and
    touches no other key; it is a total function.  A graph built from a
    sequence of records therefore holds, for each departure, the edges of
    its records in input order, and no entry for a departure without
    records. *)
Theorem build_adjacency routes :
  (∀ g dep dst ac dist k,
     add_route g dep dst ac dist !! k =
     if decide (k = dep) then Some (edges_of g dep ++ [mkEdge dst ac dist])
     else g !! k) ∧
  (∀ d, build routes !! d =
        match routes_from d routes with
        | [] => None
        | rs => Some (edge_of_route <$> rs)
        end).
Proof.
  split; [intros; apply add_route_lookup|]. intros d.
  unfold build. rewrite add_routes_lookup. unfold init, edges_of.
  rewrite lookup_empty. by destruct (routes_from d routes).
Qed.

(** ** [unique_list] *)

#[local] Instance route_key_inj : Inj (=) (=) route_key.
Proof. intros [] [] [= -> -> -> ->]. done. Qed.

Lemma unique_list_seen items :
  (foldl unique_list_body (∅, []) items).1 = list_to_set (route_key <$> items).
Proof.
  induction items as [|item items IH] using rev_ind; [done|].
  rewrite foldl_snoc, fmap_app, list_to_set_app_L.
  destruct (foldl unique_list_body (∅, []) items) as [seen result].
  simpl in *. subst seen. unfold unique_list_body.
  rewrite union_empty_r_L.
  case_decide as Hin.
  - case_decide; simpl; apply (comm_L (∪)).
  - simpl. symmetry. rewrite (comm_L (∪)).
    by apply subseteq_union_1_L, singleton_subseteq_l.
Qed.

Lemma unique_list_snoc items item :
  unique_list (items ++ [item]) =
  unique_list items ++
    (if decide (item ∈ items ∨ Distance item = 0) then [] else [item]).
Proof.
  unfold unique_list. rewrite foldl_snoc.
  pose proof (unique_list_seen items) as Hseen.
  destruct (foldl unique_list_body (∅, []) items) as [seen result].
  simpl in *. subst seen. unfold unique_list_body.
  assert (route_key item ∈ (list_to_set (route_key <$> items) : gset RouteKey)
          ↔ item ∈ items) as Hkey.
  { rewrite elem_of_list_to_set. apply list_elem_of_fmap_inj, _. }
  case_decide as Hin.
  - rewrite Hkey in Hin. case_decide as Hd; simpl.
    + rewrite decide_True by (by right). by rewrite app_nil_r.
    + rewrite decide_False; [done|]. by intros [?|?].
  - try apply dec_stable in Hin. rewrite Hkey in Hin. simpl.
    rewrite decide_True by (by left). by rewrite app_nil_r.
Qed.

Lemma unique_list_elem items r :
  r ∈ unique_list items ↔ r ∈ items ∧ Distance r ≠ 0.
Proof.
  induction items as [|item items IH] using rev_ind.
  - unfold unique_list. simpl. split; [by intros ?%elem_of_nil|by intros [?%elem_of_nil _]].
  - rewrite unique_list_snoc, !elem_of_app, IH. case_decide as Hc.
    + split.
      * intros [[Hr Hd]|Hr]; [|by apply elem_of_nil in Hr]. split; [by left|done].
      * intros [[Hr|Hr] Hd]; [by left|]. apply list_elem_of_singleton in Hr as ->.
        destruct Hc as [Hin|?]; [|done]. by left.
    + split.
      * intros [[Hr Hd]|Hr]; [split; [by left|done]|].
        apply list_elem_of_singleton in Hr as ->.
        split; [right; apply list_elem_of_here|]. intros ?. apply Hc. by right.
      * intros [[Hr|Hr] Hd]; [by left|by right].
Qed.

Lemma unique_list_NoDup items : NoDup (unique_list items).
Proof.
  induction items as [|item items IH] using rev_ind; [constructor|].
  rewrite unique_list_snoc. case_decide as Hc; [by rewrite app_nil_r|].
  apply NoDup_app. split; [done|]. split; [|apply NoDup_singleton].
  intros r [Hr _]%unique_list_elem ->%list_elem_of_singleton.
  apply Hc. by left.
Qed.

Lemma unique_list_order items : first_occurrence_order items (unique_list items).
Proof.
  induction items as [|item items IH] using rev_ind.
  - intros l1 r l2 H. by destruct l1.
  - intros l1 r l2. rewrite unique_list_snoc. case_decide as Hc.
    + rewrite app_nil_r. intros (i1 & i2 & -> & Hr & Hl2)%IH.
      exists i1, (i2 ++ [item]). by rewrite <-app_assoc.
    + destruct l2 as [|y l2 _] using rev_ind.
      * intros [_ ->]%app_inj_tail. exists items, []. split; [done|].
        split; [|by intros ? ?%elem_of_nil]. intros ?. apply Hc. by left.
      * rewrite app_comm_cons, app_assoc. intros [H ->]%app_inj_tail.
        apply IH in H as (i1 & i2 & -> & Hr & Hl2).
        exists i1, (i2 ++ [y]). split; [by rewrite <-app_assoc|]. split; [done|].
        intros r' [?| ->%list_elem_of_singleton]%elem_of_app; [by apply Hl2|].
        intros ?. apply Hc. left. apply elem_of_app. by left.
Qed.

(** C10, as the code has it.  The output of [unique_list] holds no two
    records with the same (Departure, Destination, Aircraft, Distance),
    holds no record of distance zero, and lists the records that survive
    (those of the input whose distance is not zero) in the order of their
    first occurrence. *)
Theorem unique_list_filters_zero items :
  unique_valid_ordered (fun d => d ≠ 0) items ∧
  ∀ r, r ∈ unique_list items ↔ r ∈ items ∧ Distance r ≠ 0.
Proof.
  split; [|apply unique_list_elem]. split; [|split].
  - apply (NoDup_fmap_2 _), unique_list_NoDup.
  - by intros r [_ ?]%unique_list_elem.
  - apply unique_list_order.
Qed.

(** C10 as stated fails: a record of negative distance passes the
    [== 0] test and is kept. *)
Lemma unique_list_keeps_negative :
  ¬ unique_valid_ordered (fun d => 0 < d) [mkRoute "A" "B" "X" (-5)].
Proof.
  intros (_ & Hpos & _). specialize (Hpos (mkRoute "A" "B" "X" (-5))).
  assert (0 < -5); [|lia]. apply Hpos. vm_compute. apply list_elem_of_here.
Qed.

(** ** The searches on a small graph *)

(** Fewest legs takes the direct edge, least distance the detour. *)
Example detour_fewest_legs :
  fewest_legs 3 detour_graph "A" "C" "X"
    = Some (Some ["A"; "C"]%string, detour_graph).
Proof. vm_compute. reflexivity. Qed.

Example detour_least_distance :
  least_distance 4 detour_graph "A" "C" "X"
    = Some (Some (150, ["A"; "B"; "C"]%string), detour_graph).
Proof. vm_compute. reflexivity. Qed.

(** No edge is flown by aircraft Y: both searches return [None]; the only
    airport they read, A, has an entry, so the graph is as before. *)
Example detour_other_aircraft :
  fewest_legs 2 detour_graph "A" "C" "Y" = Some (None, detour_graph) ∧
  least_distance 2 detour_graph "A" "C" "Y" = Some (None, detour_graph).
Proof. split; vm_compute; reflexivity. Qed.

(** [unique_list] keeps the first of two equal records and drops a
    record of distance zero. *)
Example unique_list_example :
  unique_list [mkRoute "A" "B" "X" 100; mkRoute "A" "C" "X" 0;
               mkRoute "A" "B" "X" 100; mkRoute "B" "C" "X" 50]
  = [mkRoute "A" "B" "X" 100; mkRoute "B" "C" "X" 50].
Proof. vm_compute. reflexivity. Qed.

(** ** The theorems at concrete queries *)

Lemma distances_fromb_true lo g ac :
  distances_fromb lo g ac = true → distances_from lo g ac.
Proof.
  intros H%bool_decide_eq_true_1 k edge Hin Hac. unfold edges_of in Hin.
  destruct (g !! k) as [l|] eqn:Hl; simpl in Hin; [|by apply elem_of_nil in Hin].
  apply H in Hl. rewrite Forall_forall in Hl. by apply Hl.
Qed.

Lemma least_distance_shortest_witness :
  distances_from 0 tie_graph "X" ∧
  least_distance_returns tie_graph "A" "D" "X" (Some (200, ["A"; "D"]%string)) ∧
  ∃ es, route tie_graph "X" "A" "D" ["A"; "D"]%string es ∧ 200 = total_distance es ∧
    ∀ p' es', route tie_graph "X" "A" "D" p' es' →
      200 ≤ total_distance es' ∧
      (total_distance es' = 200 → (length es ≤ length es')%nat).
Proof.
  assert (distances_from 0 tie_graph "X") as Hd.
  { apply distances_fromb_true. vm_compute. reflexivity. }
  assert (least_distance_returns tie_graph "A" "D" "X" (Some (200, ["A"; "D"]%string)))
    as Hr.
  { exists 3%nat, tie_graph. vm_compute. reflexivity. }
  split; [exact Hd|]. split; [exact Hr|].
  exact (least_distance_shortest tie_graph "A" "D" "X" Hd 200 ["A"; "D"]%string Hr).
Defined.

Lemma fewest_legs_shortest_witness :
  fewest_legs 3 tie_graph "A" "D" "X" = Some (Some ["A"; "D"]%string, tie_graph) ∧
  ∃ es, route tie_graph "X" "A" "D" ["A"; "D"]%string es ∧
    ∀ p' es', route tie_graph "X" "A" "D" p' es' → (length es ≤ length es')%nat.
Proof.
  assert (fewest_legs 3 tie_graph "A" "D" "X" = Some (Some ["A"; "D"]%string, tie_graph))
    as Hrun by (vm_compute; reflexivity).
  split; [exact Hrun|].
  exact (fewest_legs_shortest tie_graph "A" "D" "X" 3 ["A"; "D"]%string tie_graph Hrun).
Defined.

Lemma searches_keep_adjacency_lists_witness :
  fewest_legs 3 tie_graph "B" "A" "X" = Some (None, <["D"%string := []]> tie_graph) ∧
  graph_grown tie_graph (<["D"%string := []]> tie_graph) ∧
  ∀ k, tie_graph !! k = None →
       is_Some ((<["D"%string := []]> tie_graph : Graph) !! k) →
       k ≠ "A"%string ∧ ∃ p es, route tie_graph "X" "B" k p es.
Proof.
  assert (fewest_legs 3 tie_graph "B" "A" "X"
          = Some (None, <["D"%string := []]> tie_graph)) as Hrun
    by (vm_compute; reflexivity).
  split; [exact Hrun|].
  apply (searches_keep_adjacency_lists tie_graph "B" "A" "X" 3).
  left. exists None. exact Hrun.
Defined.

Lemma no_route_value_witness :
  "D"%string ≠ "A"%string ∧
  filter (fun edge => aircraft edge = "X"%string) (edges_of tie_graph "D") = [] ∧
  distances_from 0 tie_graph "X" ∧
  fewest_legs_returns tie_graph "D" "A" "X" None ∧
  no_route tie_graph "X" "D" "A" ∧
  least_distance_returns tie_graph "D" "A" "X" None.
Proof.
  assert ("D"%string ≠ "A"%string) as Hne by done.
  assert (filter (fun edge => aircraft edge = "X"%string) (edges_of tie_graph "D") = [])
    as Hnone by (vm_compute; reflexivity).
  assert (distances_from 0 tie_graph "X") as Hd.
  { apply distances_fromb_true. vm_compute. reflexivity. }
  destruct (no_route_value tie_graph "D" "A" "X" Hne)
    as ([Hfl _] & _ & Hld & _ & _ & Hdep).
  destruct (Hdep Hnone) as [Hf _].
  split; [exact Hne|]. split; [exact Hnone|]. split; [exact Hd|].
  split; [exact Hf|]. split; [exact (Hfl Hf)|].
  exact (Hld Hd (Hfl Hf)).
Defined.

Lemma searches_terminate_witness :
  distances_from 1 tie_graph "X" ∧
  (∃ r, fewest_legs (2 + edge_count tie_graph "X") tie_graph "A" "D" "X" = Some r) ∧
  (∃ r, least_distance (2 + edge_count tie_graph "X") tie_graph "A" "D" "X" = Some r).
Proof.
  assert (distances_from 1 tie_graph "X") as Hd.
  { apply distances_fromb_true. vm_compute. reflexivity. }
  split; [exact Hd|]. exact (searches_terminate tie_graph "A" "D" "X" Hd).
Defined.

Lemma searches_deterministic_witness :
  fewest_legs 3 tie_graph "B" "A" "X" = Some (None, <["D"%string := []]> tie_graph) ∧
  fewest_legs 5 (<["D"%string := []]> tie_graph) "B" "A" "X"
    = Some (None, <["D"%string := []]> tie_graph) ∧
  (None : option Path) = None.
Proof.
  assert (fewest_legs 3 tie_graph "B" "A" "X"
          = Some (None, <["D"%string := []]> tie_graph)) as H1
    by (vm_compute; reflexivity).
  assert (fewest_legs 5 (<["D"%string := []]> tie_graph) "B" "A" "X"
          = Some (None, <["D"%string := []]> tie_graph)) as H2
    by (vm_compute; reflexivity).
  split; [exact H1|]. split; [exact H2|].
  destruct (searches_deterministic tie_graph "B" "A" "X") as (_ & _ & Hagain & _).
  exact (Hagain 3%nat 5%nat None _ None _ H1 H2).
Defined.

(** * Further properties of the code *)

(** ** What the two searches return, compared *)

Lemma fewest_legs_min g s e ac p :
  fewest_legs_returns g s e ac (Some p) →
  ∃ es, route g ac s e p es ∧
    ∀ p' es', route g ac s e p' es' → (length es ≤ length es')%nat.
Proof.
  intros (fuel & g' & (st & Hinv & Hbody)%fewest_legs_final).
  destruct (bfs_inv_found _ _ _ _ _ _ _ Hinv Hbody) as [(Hh & Hl & es & Hp) Hmin].
  exists es. split; [done|]. intros p' es' Hr%route_reach.
  apply Hmin in Hr. apply path_edges_length in Hp. lia.
Qed.

Lemma least_distance_min g s e ac D p :
  distances_from 0 g ac → least_distance_returns g s e ac (Some (D, p)) →
  ∃ es, route g ac s e p es ∧ D = total_distance es ∧
    ∀ p' es', route g ac s e p' es' →
      D ≤ total_distance es' ∧
      (total_distance es' = D → (length es ≤ length es')%nat).
Proof.
  intros Hdist (fuel & g' & Hrun).
  pose proof (distances_from_flies _ _ _ Hdist) as Hnn.
  apply (while_inv _ (fun st => ld_valid (edges_of g) ac s st ∧
                                ld_inv (edges_of g) ac s e st)) in Hrun
    as (st & [[_ Hvalid] Hinv] & Hbody).
  - destruct st as [[g1 pq] visited].
    apply least_distance_body_inr in Hbody
      as [[_ [=]]|(d & h & p0 & pq' & Hpop & [= <- <- <-])].
    pose proof (ld_inv_found _ _ _ _ Hnn _ _ _ _ _ Hinv Hpop) as Hle.
    apply heappop_Some in Hpop as [Hperm _].
    destruct (Hvalid (D, h, e, p)) as (Hh & Hl & es & Hp & [= -> ->]).
    { simpl. rewrite <-Hperm. apply list_elem_of_here. }
    exists es. split; [done|]. split; [done|].
    intros p' es' Hr%route_reach. apply Hle in Hr.
    unfold key_le in Hr. simpl in Hr. lia.
  - intros st st' [? ?] Hb. split; [by eapply ld_valid_step|by eapply ld_inv_step].
  - split; [by apply ld_valid_init|by apply ld_inv_init].
Qed.

Lemma route_length g ac s e p es : route g ac s e p es → length p = S (length es).
Proof. intros (_ & _ & Hp). by eapply path_edges_length. Qed.

(** X1. On every graph, negative distances included, what
    [least_distance] returns is a route of the graph: the path leads from
    the start to the end along edges of the aircraft, and the distance
    returned is the sum of the distances of those edges. *)
Theorem least_distance_sound g s e ac D p :
  least_distance_returns g s e ac (Some (D, p)) →
  ∃ es, route g ac s e p es ∧ D = total_distance es.
Proof. apply least_distance_Some_route. Qed.

(** X2. On every graph: when [least_distance] returns a path,
    [fewest_legs] returns a path too, with no more airports; and when
    [fewest_legs] returns [None], [least_distance] returns nothing but
    [None]. *)
Theorem least_distance_route_fewest_legs_route g s e ac :
  (∀ D p, least_distance_returns g s e ac (Some (D, p)) →
     ∃ p', fewest_legs_returns g s e ac (Some p') ∧ (length p' ≤ length p)%nat) ∧
  (fewest_legs_returns g s e ac None →
     ∀ r, least_distance_returns g s e ac r → r = None).
Proof.
  split.
  - intros D p (es & Hr & _)%least_distance_Some_route.
    destruct (fewest_legs_terminates g s e ac) as [[[p'|] g'] Hrun].
    + assert (fewest_legs_returns g s e ac (Some p')) as Hret by (by eexists _, _).
      exists p'. split; [done|].
      destruct (fewest_legs_min _ _ _ _ _ Hret) as (es' & Hr' & Hmin).
      apply Hmin in Hr as Hle.
      apply route_length in Hr, Hr'. lia.
    + destruct (fewest_legs_None_no_route g s e ac); [by eexists _, _|by eauto].
  - intros Hnone%fewest_legs_None_no_route [[D p]|] Hret; [|done].
    apply least_distance_Some_route in Hret as (es & Hr & _).
    destruct Hnone. eauto.
Qed.

(** X3. On a graph without negative distances: when [fewest_legs]
    returns a path, [least_distance] returns a distance and a path with at
    least as many airports, and the distance is at most the total of any
    edges along the path of [fewest_legs]. *)
Theorem fewest_legs_route_least_distance_route g s e ac p' :
  distances_from 0 g ac →
  fewest_legs_returns g s e ac (Some p') →
  ∃ D p, least_distance_returns g s e ac (Some (D, p)) ∧
    (length p' ≤ length p)%nat ∧
    ∀ es', route g ac s e p' es' → D ≤ total_distance es'.
Proof.
  intros Hdist Hret.
  destruct (fewest_legs_min _ _ _ _ _ Hret) as (es' & Hr' & Hmin).
  destruct (least_distance_terminates g s e ac Hdist) as [[[[D p]|] g'] Hrun].
  - assert (least_distance_returns g s e ac (Some (D, p))) as Hld by (by eexists _, _).
    exists D, p. split; [done|].
    destruct (least_distance_min _ _ _ _ _ _ Hdist Hld) as (es & Hr & -> & Hopt).
    split.
    + apply Hmin in Hr as Hle. apply route_length in Hr, Hr'. lia.
    + intros es'' Hr''. by apply Hopt in Hr'' as [? _].
  - destruct (least_distance_None_no_route g s e ac); [by eexists _, _|by eauto].
Qed.

(** ** Routes without repeated airports *)

Lemma total_distance_app es1 es2 :
  total_distance (es1 ++ es2) = total_distance es1 + total_distance es2.
Proof. induction es1 as [|e0 es1 IH]; simpl; lia. Qed.

Lemma path_edges_flies adj ac p es edge :
  path_edges adj ac p es → edge ∈ es → ∃ x, flies adj ac x edge.
Proof.
  induction 1 as [|x y edge0 p es Hf Hd Hp IH]; [by intros ?%elem_of_nil|].
  intros [->|Hin]%elem_of_cons; eauto.
Qed.

(** From an airport on a path, the rest of the path and of its edges. *)
Lemma path_edges_suffix adj ac y p es x :
  path_edges adj ac (y :: p) es → x ∈ y :: p →
  ∃ p' es0 es', path_edges adj ac (x :: p') es' ∧
    last (x :: p') = last (y :: p) ∧ es = es0 ++ es'.
Proof.
  revert y es. induction p as [|z p IH]; intros y es Hp Hin.
  - apply list_elem_of_singleton in Hin as ->. exists [], [], es. by rewrite app_nil_l.
  - apply elem_of_cons in Hin as [->|Hin].
    + exists (z :: p), [], es. by rewrite app_nil_l.
    + inversion Hp as [|? ? edge ? es1 Hf Hd Hp']; subst.
      destruct (IH _ _ Hp' Hin) as (p' & es0 & es' & Hp'' & Hl & ->).
      exists p', (edge :: es0), es'. split; [done|]. split; [|done].
      by rewrite Hl.
Qed.

(** A path that repeats an airport has a shorter one inside it, with the
    same ends. *)
Lemma path_edges_shorten adj ac p es :
  path_edges adj ac p es → ¬ NoDup p →
  ∃ p' es' cut, path_edges adj ac p' es' ∧
    head p' = head p ∧ last p' = last p ∧ cut ≠ [] ∧ es ≡ₚ cut ++ es'.
Proof.
  induction 1 as [x|x y edge p es Hf Hd Hp IH]; intros Hdup.
  - destruct Hdup. apply NoDup_singleton.
  - destruct (decide (x ∈ y :: p)) as [Hin|Hnin].
    + destruct (path_edges_suffix _ _ _ _ _ _ Hp Hin) as (p' & es0 & es' & Hp' & Hl & ->).
      exists (x :: p'), es', (edge :: es0). split; [done|]. split; [done|].
      split; [exact Hl|]. split; [done|]. done.
    + destruct IH as (p' & es' & cut & Hp' & Hh & Hl & Hcut & Hperm).
      { intros Hnd. apply Hdup. by constructor. }
      destruct p' as [|y' p']; [done|]. injection Hh as ->.
      exists (x :: y :: p'), (edge :: es'), cut.
      split; [by eapply path_edges_cons|]. split; [done|].
      split; [exact Hl|]. split; [done|].
      by rewrite Hperm, Permutation_middle.
Qed.

Lemma total_distance_perm es1 es2 :
  es1 ≡ₚ es2 → total_distance es1 = total_distance es2.
Proof. induction 1; simpl; lia. Qed.

Lemma route_shorten g ac s e p es :
  route g ac s e p es → ¬ NoDup p →
  ∃ p' es' cut, route g ac s e p' es' ∧ cut ≠ [] ∧ es ≡ₚ cut ++ es'.
Proof.
  intros (Hh & Hl & Hp) Hdup.
  destruct (path_edges_shorten _ _ _ _ Hp Hdup)
    as (p' & es' & cut & Hp' & Hh' & Hl' & Hcut & Hperm).
  exists p', es', cut. split; [|done].
  split; [by rewrite Hh'|]. split; [by rewrite Hl'|done].
Qed.

(** X4. The path that [fewest_legs] returns passes no airport twice. *)
Theorem fewest_legs_no_repeat g s e ac p :
  fewest_legs_returns g s e ac (Some p) → NoDup p.
Proof.
  intros (es & Hr & Hmin)%fewest_legs_min.
  destruct (decide (NoDup p)) as [|Hdup]; [done|].
  destruct (route_shorten _ _ _ _ _ _ Hr Hdup) as (p' & es' & cut & Hr' & Hcut & Hperm).
  apply Hmin in Hr'. apply Permutation_length in Hperm.
  rewrite length_app in Hperm. destruct cut; [done|]. simpl in Hperm. lia.
Qed.

(** X5. On a graph without negative distances the path that
    [least_distance] returns passes no airport twice. *)
Theorem least_distance_no_repeat g s e ac D p :
  distances_from 0 g ac →
  least_distance_returns g s e ac (Some (D, p)) → NoDup p.
Proof.
  intros Hdist Hret.
  destruct (least_distance_min _ _ _ _ _ _ Hdist Hret) as (es & Hr & -> & Hopt).
  destruct (decide (NoDup p)) as [|Hdup]; [done|].
  destruct (route_shorten _ _ _ _ _ _ Hr Hdup) as (p' & es' & cut & Hr' & Hcut & Hperm).
  destruct (Hopt _ _ Hr') as [Hle Hlegs].
  assert (0 ≤ total_distance cut) as Hcutnn.
  { assert (∀ edge, edge ∈ cut → 0 ≤ distance edge) as Hall.
    { intros edge Hin. destruct Hr as (_ & _ & Hp).
      destruct (path_edges_flies _ _ _ _ edge Hp) as [x [Hx Hac]].
      - rewrite Hperm. apply elem_of_app. by left.
      - by apply (Hdist x). }
    clear -Hall. induction cut as [|edge cut IH]; simpl; [done|].
    assert (0 ≤ distance edge) by (apply Hall, list_elem_of_here).
    assert (0 ≤ total_distance cut); [|lia].
    apply IH. intros ? ?. by apply Hall, list_elem_of_further. }
  pose proof (total_distance_perm _ _ Hperm) as Htot.
  rewrite total_distance_app in Htot.
  apply Permutation_length in Hperm. rewrite length_app in Hperm.
  destruct cut; [done|]. simpl in Hperm.
  assert (total_distance es' = total_distance es) as Heq by lia.
  apply Hlegs in Heq. lia.
Qed.

(** ** [unique_list] on its own output *)

Lemma unique_list_clean items :
  NoDup items → (∀ r, r ∈ items → Distance r ≠ 0) → unique_list items = items.
Proof.
  induction items as [|item items IH] using rev_ind; [done|].
  intros [Hnd [Hnin _]]%NoDup_app Hnz. rewrite unique_list_snoc, IH; [|done|].
  - rewrite decide_False; [done|]. intros [Hin|Hz].
    + by apply (Hnin item), list_elem_of_here.
    + apply (Hnz item); [|done]. apply elem_of_app. right. apply list_elem_of_here.
  - intros r Hr. apply Hnz, elem_of_app. by left.
Qed.

(** X6. [unique_list] is idempotent: cleaning a cleaned list changes
    nothing. *)
Theorem unique_list_idempotent items :
  unique_list (unique_list items) = unique_list items.
Proof.
  apply unique_list_clean; [apply unique_list_NoDup|].
  by intros r [_ ?]%unique_list_elem.
Qed.

(** ** [load_routes] *)

Import RouteFinderApp.

Lemma add_routes_init_edges routes d :
  edges_of (add_routes init routes) d = edge_of_route <$> routes_from d routes.
Proof.
  unfold edges_of. rewrite add_routes_lookup. unfold init, edges_of.
  rewrite lookup_empty. by destruct (routes_from d routes).
Qed.

Lemma routes_from_elem d routes r :
  r ∈ routes_from d routes ↔ Departure r = d ∧ r ∈ routes.
Proof. unfold routes_from. by rewrite list_elem_of_filter. Qed.

Lemma edge_of_route_departure r :
  mkRoute (Departure r) (dest (edge_of_route r)) (aircraft (edge_of_route r))
          (distance (edge_of_route r)) = r.
Proof. by destruct r. Qed.

(** X7. The graph that [load_routes] builds in the empty graph of
    [__init__] holds every parsed record of distance other than zero as
    an edge under its departure, and nothing else: each adjacency list is
    not empty, repeats no edge, holds no edge of distance zero, and each
    of its edges is a parsed record. *)
Theorem load_routes_graph parsed :
  (∀ r, r ∈ parsed → Distance r ≠ 0 →
     edge_of_route r ∈ edges_of (graph (load_routes init parsed)) (Departure r)) ∧
  (∀ d l, graph (load_routes init parsed) !! d = Some l →
     l ≠ [] ∧ NoDup l ∧
     ∀ edge, edge ∈ l →
       distance edge ≠ 0 ∧
       mkRoute d (dest edge) (aircraft edge) (distance edge) ∈ parsed).
Proof.
  unfold load_routes. simpl. split.
  - intros r Hr Hd. rewrite add_routes_init_edges.
    apply list_elem_of_fmap_2, routes_from_elem. split; [done|].
    by apply unique_list_elem.
  - intros d l Hl.
    assert (l = edge_of_route <$> routes_from d (unique_list parsed) ∧
            routes_from d (unique_list parsed) ≠ []) as [-> Hne].
    { pose proof (add_routes_init_edges (unique_list parsed) d) as He.
      unfold edges_of in He. rewrite Hl in He. simpl in He. split; [done|].
      intros Hnil. rewrite add_routes_lookup, Hnil in Hl.
      unfold init in Hl. by rewrite lookup_empty in Hl. }
    split; [by destruct (routes_from d (unique_list parsed))|]. split.
    + apply NoDup_fmap_2_strong.
      * intros r1 r2 [Hd1 _]%routes_from_elem [Hd2 _]%routes_from_elem Heq.
        rewrite <-(edge_of_route_departure r1), <-(edge_of_route_departure r2).
        by rewrite Hd1, Hd2, Heq.
      * apply NoDup_filter, unique_list_NoDup.
    + intros edge (r & -> & [Hd [Hr Hnz]%unique_list_elem]%routes_from_elem)%list_elem_of_fmap.
      split; [done|]. by rewrite <-Hd, edge_of_route_departure.
Qed.

Lemma sorted_elem (l : list string) x : x ∈ sorted l ↔ x ∈ l.
Proof. unfold sorted. by rewrite merge_sort_Permutation. Qed.

Lemma sorted_set_spec (X : gset string) :
  Sorted String.le (sorted (elements X)) ∧ NoDup (sorted (elements X)) ∧
  ∀ x, x ∈ sorted (elements X) ↔ x ∈ X.
Proof.
  split; [apply (Sorted_merge_sort _)|]. split.
  - unfold sorted. rewrite merge_sort_Permutation. apply NoDup_elements.
  - intros x. by rewrite sorted_elem, elem_of_elements.
Qed.

(** The selection lists that [load_routes] builds are in ascending
    order without repetition; the aircraft list holds the aircraft of the
    kept records, the airport list their departures and destinations. *)
Theorem load_routes_lists g parsed :
  let app := load_routes g parsed in
  (Sorted String.le (aircraft_list app) ∧ NoDup (aircraft_list app) ∧
   ∀ a, a ∈ aircraft_list app ↔ ∃ r, r ∈ routes app ∧ Aircraft r = a) ∧
  (Sorted String.le (airport_list app) ∧ NoDup (airport_list app) ∧
   ∀ x, x ∈ airport_list app ↔
        ∃ r, r ∈ routes app ∧ (Departure r = x ∨ Destination r = x)).
Proof.
  unfold load_routes. simpl. split.
  - destruct (sorted_set_spec (list_to_set (Aircraft <$> unique_list parsed)))
      as (Hs & Hnd & Hin).
    split; [done|]. split; [done|]. intros a.
    rewrite Hin, elem_of_list_to_set, list_elem_of_fmap.
    split; [intros (r & -> & Hr)|intros (r & Hr & <-)]; eauto.
  - destruct (sorted_set_spec (list_to_set (Departure <$> unique_list parsed)
                               ∪ list_to_set (Destination <$> unique_list parsed)))
      as (Hs & Hnd & Hin).
    split; [done|]. split; [done|]. intros x.
    rewrite Hin, elem_of_union, !elem_of_list_to_set, !list_elem_of_fmap. split.
    + intros [(r & -> & Hr)|(r & -> & Hr)]; eauto.
    + intros (r & Hr & [<-|<-]); eauto.
Qed.

(** X8. After [load_routes] on the empty graph the selection lists and
    the graph agree: an aircraft is listed exactly when some edge of the
    graph is flown by it, and an airport is listed exactly when it has an
    adjacency entry or is the destination of an edge. *)
Theorem load_routes_lists_graph parsed :
  let app := load_routes init parsed in
  (∀ a, a ∈ aircraft_list app ↔
        ∃ d edge, edge ∈ edges_of (graph app) d ∧ aircraft edge = a) ∧
  (∀ x, x ∈ airport_list app ↔
        is_Some (graph app !! x) ∨
        ∃ d edge, edge ∈ edges_of (graph app) d ∧ dest edge = x).
Proof.
  unfold load_routes. simpl.
  assert (∀ d edge, edge ∈ edges_of (add_routes init (unique_list parsed)) d ↔
            ∃ r, r ∈ unique_list parsed ∧ Departure r = d ∧ edge = edge_of_route r)
    as Hedges.
  { intros d edge. rewrite add_routes_init_edges, list_elem_of_fmap.
    split.
    - intros (r & -> & [Hd Hr]%routes_from_elem). eauto.
    - intros (r & Hr & Hd & ->). exists r. split; [done|]. by apply routes_from_elem. }
  split.
  - intros a.
    destruct (sorted_set_spec (list_to_set (Aircraft <$> unique_list parsed)))
      as (_ & _ & Hin).
    rewrite Hin, elem_of_list_to_set, list_elem_of_fmap. split.
    + intros (r & -> & Hr). exists (Departure r), (edge_of_route r).
      split; [|done]. apply Hedges. eauto.
    + intros (d & edge & (r & Hr & _ & ->)%Hedges & <-). eauto.
  - intros x.
    destruct (sorted_set_spec (list_to_set (Departure <$> unique_list parsed)
                               ∪ list_to_set (Destination <$> unique_list parsed)))
      as (_ & _ & Hin).
    rewrite Hin, elem_of_union, !elem_of_list_to_set, !list_elem_of_fmap. split.
    + intros [(r & -> & Hr)|(r & -> & Hr)].
      * left. rewrite add_routes_lookup.
        destruct (routes_from (Departure r) (unique_list parsed)) as [|r0 rs] eqn:Hrs;
          [|by eexists].
        assert (r ∈ routes_from (Departure r) (unique_list parsed)) as Hin'
          by (by apply routes_from_elem).
        rewrite Hrs in Hin'. by apply elem_of_nil in Hin'.
      * right. exists (Departure r), (edge_of_route r). split; [|done].
        apply Hedges. eauto.
    + intros [[l Hl]|(d & edge & (r & Hr & _ & ->)%Hedges & <-)]; [|right; eauto].
      left. rewrite add_routes_lookup in Hl.
      destruct (routes_from x (unique_list parsed)) as [|r0 rs] eqn:Hrs.
      * unfold init in Hl. by rewrite lookup_empty in Hl.
      * assert (r0 ∈ routes_from x (unique_list parsed)) as [Hd Hr]%routes_from_elem
          by (rewrite Hrs; apply list_elem_of_here).
        eauto.
Qed.

(** ** [compute_routes] *)

Lemma graph_grown_trans g1 g2 g3 :
  graph_grown g1 g2 → graph_grown g2 g3 → graph_grown g1 g3.
Proof.
  intros H12 H23 k. destruct (H12 k) as [E12|[E1 E2]], (H23 k) as [E23|[E2' E3]].
  - left. congruence.
  - right. split; congruence.
  - right. split; congruence.
  - congruence.
Qed.





Lemma leg_lines_spec g ac p adj :
  (∀ k, edges_of g k = adj k) →
  (leg_lines g ac p).1 = legs_of adj ac p ∧ graph_grown g (leg_lines g ac p).2.
Proof.
  revert g. induction p as [|a rest IH]; intros g Hg; simpl.
  { split; [done|apply graph_grown_refl]. }
  destruct rest as [|b rest]; [split; [done|apply graph_grown_refl]|].
  pose proof (getitem_fst g a) as Hfst.
  pose proof (getitem_edges_of g a) as Hed.
  pose proof (graph_grown_getitem g g a (graph_grown_refl g)) as Hgr.
  destruct (getitem g a) as [edges g1]. simpl in Hfst, Hed, Hgr. subst edges.
  destruct (IH g1) as [IH1 IH2]; [intros k; by rewrite Hed|].
  destruct (leg_lines g1 ac (b :: rest)) as [lines g2]. simpl in *.
  split; [by rewrite Hg, IH1|]. by eapply graph_grown_trans.
Qed.


(** The legs shown along a route are legs of a route on the same
    airports, taking for each leg the first edge that fits. *)
Lemma legs_of_route adj ac p es :
  path_edges adj ac p es →
  ∃ es', path_edges adj ac p es' ∧
    length (legs_of adj ac p) = length es' ∧
    leg_total (legs_of adj ac p) = total_distance es' ∧
    Forall (fun line => ∃ edge, flies adj ac line.1.1 edge ∧
                                dest edge = line.1.2 ∧ distance edge = line.2)
           (legs_of adj ac p) ∧
    ((∀ k e1 e2, e1 ∈ adj k → e2 ∈ adj k → aircraft e1 = ac → aircraft e2 = ac →
                 dest e1 = dest e2 → e1 = e2) → es' = es).
Proof.
  induction 1 as [x|x y edge p es [Hin Hac] Hd Hp IH].
  - exists []. split; [apply path_edges_one|]. split; [done|]. split; [done|].
    split; [constructor|done].
  - destruct IH as (es' & Hp' & Hlen & Htot & Hall & Hsame).
    assert (edge ∈ filter (fun edge => dest edge = y ∧ aircraft edge = ac) (adj x))
      as Hfit by (by apply list_elem_of_filter).
    change (legs_of adj ac (x :: y :: p))
      with ((x, y, leg_distance (adj x) y ac) :: legs_of adj ac (y :: p)).
    unfold leg_distance.
    destruct (filter (fun edge => dest edge = y ∧ aircraft edge = ac) (adj x))
      as [|edge' rest] eqn:Hfilter; [by apply elem_of_nil in Hfit|].
    assert (edge' ∈ filter (fun edge => dest edge = y ∧ aircraft edge = ac) (adj x))
      as [[Hd' Hac'] Hin']%list_elem_of_filter
      by (rewrite Hfilter; apply list_elem_of_here).
    exists (edge' :: es'). split; [by eapply path_edges_cons|].
    split.
    { change (S (length (legs_of adj ac (y :: p))) = S (length es')).
      by rewrite Hlen. }
    split.
    { change (distance edge' + leg_total (legs_of adj ac (y :: p))
              = distance edge' + total_distance es').
      by rewrite Htot. }
    split.
    + constructor; [|done]. exists edge'. by repeat split.
    + intros Hpar. rewrite (Hsame Hpar). f_equal.
      apply (Hpar x); congruence.
Qed.


Lemma compute_routes_least fuel g ac s e fewest D legs lines g' :
  compute_routes fuel g ac s e = Some (Found fewest (Some (D, legs, lines)), g') →
  ∃ p, least_distance_returns g s e ac (Some (D, p)) ∧
       legs = Z.of_nat (length p) - 1 ∧ lines = legs_of (edges_of g) ac p.
Proof.
  unfold compute_routes. case_decide as Hempty; [done|].
  destruct (fewest_legs fuel g s e ac) as [[fl g1]|] eqn:Hfl; [|done].
  destruct (least_distance fuel g1 s e ac) as [[ld g2]|] eqn:Hld; [|done].
  pose proof (fewest_legs_grown _ _ _ _ _ _ _ Hfl) as Hg1.
  pose proof (least_distance_grown _ _ _ _ _ _ _ Hld) as Hg2.
  assert (least_distance_returns g s e ac ld) as Hret.
  { pose proof (least_distance_reads g1 g s e ac fuel
                  (fun k => graph_grown_edges_of _ _ k Hg1)) as Hread.
    rewrite Hld in Hread. simpl in Hread.
    destruct (least_distance fuel g s e ac) as [[ld' g'']|] eqn:Hld'; [|done].
    injection Hread as ->. by exists fuel, g''. }
  destruct ld as [[D' p]|]; [|done].
  destruct (leg_lines_spec g2 ac p (edges_of g)) as [Hlines _].
  { intros k. rewrite (graph_grown_edges_of _ _ k Hg2).
    apply (graph_grown_edges_of _ _ k Hg1). }
  destruct (leg_lines g2 ac p) as [lines' g3]. simpl in *.
  intros [= _ <- <- <- _]. by exists p.
Qed.

(** X10. The legs that [compute_routes] shows under the least-distance
    route: there is one line for each leg counted, each line carries the
    distance of an edge of the aircraft between its two airports (the
    default 0 of [next] is never used), and the distances shown add up to
    at least the total shown when no distance is negative, and to exactly
    the total when no two edges of the aircraft join the same two
    airports. *)
Theorem compute_routes_legs fuel g ac s e fewest D legs lines g' :
  compute_routes fuel g ac s e = Some (Found fewest (Some (D, legs, lines)), g') →
  legs = Z.of_nat (length lines) ∧
  Forall (fun line => ∃ edge, flies (edges_of g) ac line.1.1 edge ∧
                              dest edge = line.1.2 ∧ distance edge = line.2) lines ∧
  (distances_from 0 g ac → D ≤ leg_total lines) ∧
  (no_parallel g ac → leg_total lines = D).
Proof.
  intros (p & Hret & -> & ->)%compute_routes_least.
  destruct (least_distance_Some_route _ _ _ _ _ _ Hret) as (es & Hr & HD).
  pose proof Hr as (Hh & Hl & Hp).
  destruct (legs_of_route _ _ _ _ Hp) as (es' & Hp' & Hlen & Htot & Hall & Hsame).
  split; [|split; [done|split]].
  - rewrite Hlen. apply path_edges_length in Hp'. lia.
  - intros Hdist. rewrite Htot.
    destruct (least_distance_min _ _ _ _ _ _ Hdist Hret) as (es0 & _ & -> & Hopt).
    apply (Hopt p es'). by repeat split.
  - intros Hpar. rewrite Htot, HD. f_equal. apply Hsame.
    intros k e1 e2. apply Hpar.
Qed.

(** With the edges A→B of 100 and of 50, both of aircraft X, the total
    shown is 50 and the leg is shown with 100. *)
Example compute_routes_parallel :
  compute_routes 3 parallel_graph "X" "A" "B"
  = Some (Found (Some (1, ["A"; "B"]%string))
                (Some (50, 1, [("A"%string, "B"%string, 100)])),
          parallel_graph).
Proof. vm_compute. reflexivity. Qed.

(** ** Edges of other aircraft *)

Lemma fewest_legs_same_for ac g1 g2 s e fuel :
  same_for ac g1 g2 →
  fst <$> fewest_legs fuel g1 s e ac = fst <$> fewest_legs fuel g2 s e ac.
Proof.
  intros Hg.
  pose proof (while_sim (fewest_legs_body e ac) (fewest_legs_body e ac)
    (fun st1 st2 : BfsState =>
       same_for ac st1.1.1 st2.1.1 ∧ st1.1.2 = st2.1.2 ∧ st1.2 = st2.2)
    (fun r1 r2 => r1.1 = r2.1)) as Hsim.
  unfold fewest_legs.
  specialize (Hsim ltac:(
    intros [[ga q] v] [[gb q'] v'] (Hgab & Hq & Hv); simpl in *; subst q' v';
    unfold fewest_legs_body;
    destruct q as [|[x p] q]; [done|];
    destruct (decide (x = e)); [done|];
    destruct (decide (x ∈ v)); [done|];
    pose proof (getitem_fst ga x) as Ha; pose proof (getitem_fst gb x) as Hb;
    pose proof (getitem_edges_of ga x) as Ha'; pose proof (getitem_edges_of gb x) as Hb';
    destruct (getitem ga x) as [ea ga'], (getitem gb x) as [eb gb']; simpl in *;
    subst ea eb; rewrite !bfs_expand_eq, (Hgab x); split; [|done];
    intros k; by rewrite Ha', Hb') fuel (g1, [(s, [s])], ∅) (g2, [(s, [s])], ∅)).
  destruct (while _ fuel (g1, _, _)), (while _ fuel (g2, _, _)); simpl in *;
    try (by exfalso; apply Hsim); try done.
  f_equal. by apply Hsim.
Qed.

Lemma least_distance_same_for ac g1 g2 s e fuel :
  same_for ac g1 g2 →
  fst <$> least_distance fuel g1 s e ac = fst <$> least_distance fuel g2 s e ac.
Proof.
  intros Hg.
  pose proof (while_sim (least_distance_body e ac) (least_distance_body e ac)
    (fun st1 st2 : LdState =>
       same_for ac st1.1.1 st2.1.1 ∧ st1.1.2 = st2.1.2 ∧ st1.2 = st2.2)
    (fun r1 r2 => r1.1 = r2.1)) as Hsim.
  unfold least_distance.
  specialize (Hsim ltac:(
    intros [[ga q] v] [[gb q'] v'] (Hgab & Hq & Hv); simpl in *; subst q' v';
    unfold least_distance_body;
    destruct (heapq.heappop q) as [[[[[d h] x] p] pq']|]; [|done];
    destruct (decide (x = e)); [done|];
    destruct (ld_skip v x d h); [done|];
    pose proof (getitem_fst ga x) as Ha; pose proof (getitem_fst gb x) as Hb;
    pose proof (getitem_edges_of ga x) as Ha'; pose proof (getitem_edges_of gb x) as Hb';
    destruct (getitem ga x) as [ea ga'], (getitem gb x) as [eb gb']; simpl in *;
    subst ea eb; rewrite !ld_expand_eq, (Hgab x); split; [|done];
    intros k; by rewrite Ha', Hb')
    fuel (g1, [(0, 0, s, [s])], ∅) (g2, [(0, 0, s, [s])], ∅)).
  destruct (while _ fuel (g1, _, _)), (while _ fuel (g2, _, _)); simpl in *;
    try (by exfalso; apply Hsim); try done.
  f_equal. by apply Hsim.
Qed.

(** X11. Edges of other aircraft are invisible to a query: on two graphs
    that hold the same edges of the requested aircraft, in the same order
    under each key, both searches return the same value after the same
    number of iterations. *)
Theorem other_aircraft_invisible ac g1 g2 s e fuel :
  same_for ac g1 g2 →
  fst <$> fewest_legs fuel g1 s e ac = fst <$> fewest_legs fuel g2 s e ac ∧
  fst <$> least_distance fuel g1 s e ac = fst <$> least_distance fuel g2 s e ac.
Proof.
  intros Hg. split; [by apply fewest_legs_same_for|by apply least_distance_same_for].
Qed.

(** ** The keys that a search adds *)

(** X12. A key that a search adds to the graph belongs to an airport
    that the search reached from the start along edges of the aircraft,
    and is never the destination of the query. *)
Theorem searches_add_reached_keys g s e ac fuel g' k :
  (∃ r, fewest_legs fuel g s e ac = Some (r, g')) ∨
  (∃ r, least_distance fuel g s e ac = Some (r, g')) →
  g !! k = None → is_Some (g' !! k) →
  k ≠ e ∧ ∃ p es, route g ac s k p es.
Proof.
  intros [[r Hrun]|[r Hrun]];
    [by eapply fewest_legs_added|by eapply least_distance_added].
Qed.

(** ** [load_routes] and the searches together *)

Lemma add_route_insert g dep dst ac dist :
  add_route g dep dst ac dist = <[dep := edges_of g dep ++ [mkEdge dst ac dist]]> g.
Proof.
  apply map_eq. intros k. rewrite add_route_lookup.
  destruct (decide (k = dep)) as [->|Hne].
  - by rewrite lookup_insert_eq.
  - by rewrite lookup_insert_ne.
Qed.

Lemma edge_count_insert g ac k l :
  (edge_count (<[k := l]> g) ac
   + length (filter (fun edge => aircraft edge = ac) (edges_of g k))
   = edge_count g ac + length (filter (fun edge => aircraft edge = ac) l))%nat.
Proof.
  unfold edge_count, pending, edges_of.
  assert (∀ kl, pending_at ac ∅ kl
                = length (filter (fun edge => aircraft edge = ac) kl.2)) as Hat.
  { intros kl. unfold pending_at. by rewrite decide_False by apply not_elem_of_empty. }
  destruct (g !! k) as [l0|] eqn:Hk; simpl.
  - rewrite <-(insert_delete_eq g), map_to_list_insert by apply lookup_delete_eq.
    rewrite <-(map_to_list_delete g k l0 Hk). simpl. rewrite !Hat. simpl. lia.
  - rewrite map_to_list_insert by done. simpl. rewrite Hat. simpl. lia.
Qed.

Lemma edge_count_add_routes g ac routes :
  edge_count (add_routes g routes) ac
  = (edge_count g ac + length (filter (fun r => Aircraft r = ac) routes))%nat.
Proof.
  unfold add_routes. revert g. induction routes as [|r routes IH]; intros g; simpl.
  - lia.
  - rewrite IH, add_route_insert, filter_cons.
    pose proof (edge_count_insert g ac (Departure r)
      (edges_of g (Departure r) ++ [mkEdge (Destination r) (Aircraft r) (Distance r)])) as Hc.
    rewrite filter_app, length_app in Hc. rewrite filter_cons in Hc. simpl in Hc.
    destruct (decide (Aircraft r = ac)); simpl in *; lia.
Qed.

Lemma unique_list_length items : (length (unique_list items) ≤ length items)%nat.
Proof.
  induction items as [|item items IH] using rev_ind; [done|].
  rewrite unique_list_snoc, !length_app. case_decide; simpl; lia.
Qed.

Lemma load_routes_edge_count parsed ac :
  (edge_count (graph (load_routes init parsed)) ac ≤ length parsed)%nat.
Proof.
  unfold load_routes. simpl. rewrite edge_count_add_routes.
  assert (edge_count init ac = 0%nat) as -> by done.
  pose proof (length_filter (fun r => Aircraft r = ac) (unique_list parsed)).
  pose proof (unique_list_length parsed). lia.
Qed.

(** X13. On the graph that [load_routes] builds from [n] parsed records
    [fewest_legs] returns within [n + 2] iterations of its loop, and so
    does [least_distance] when no record has a negative distance. *)
Theorem loaded_searches_terminate parsed s e ac :
  (∃ r, fewest_legs (2 + length parsed) (graph (load_routes init parsed)) s e ac
        = Some r) ∧
  ((∀ r, r ∈ parsed → 0 ≤ Distance r) →
   ∃ r, least_distance (2 + length parsed) (graph (load_routes init parsed)) s e ac
        = Some r).
Proof.
  pose proof (load_routes_edge_count parsed ac) as Hcount. split.
  - destruct (fewest_legs_terminates (graph (load_routes init parsed)) s e ac)
      as [r Hrun].
    exists r. eapply while_mono; [exact Hrun|lia].
  - intros Hnn.
    destruct (least_distance_terminates (graph (load_routes init parsed)) s e ac)
      as [r Hrun].
    + intros k edge Hin _. unfold load_routes in Hin. simpl in Hin.
      rewrite add_routes_init_edges in Hin.
      apply list_elem_of_fmap in Hin
        as (r & -> & [_ [Hr _]%unique_list_elem]%routes_from_elem).
      by apply Hnn.
    + exists r. eapply while_mono; [exact Hrun|lia].
Qed.

(** ** The selection list *)

Import ScrollSelect.

Lemma prefix_split q s :
  String.prefix q s = true ↔ ∃ s2, s = (q +:+ s2)%string.
Proof.
  revert s. induction q as [|c q IH]; intros s.
  - split; [exists s; done|]. intros _. by destruct s.
  - destruct s as [|c' s]; simpl.
    + split; [done|]. by intros [s2 [=]].
    + destruct (Ascii.ascii_dec c c') as [<-|Hne].
      * rewrite IH. split.
        -- intros [s2 ->]. by exists s2.
        -- intros [s2 [= ->]]. by exists s2.
      * split; [done|]. intros [s2 [= ? _]]. done.
Qed.

Lemma contains_cons q c s :
  contains q (String c s) = String.prefix q (String c s) || contains q s.
Proof. done. Qed.

(** [contains q s] is Python's [q in s]: [q] occurs in [s]. *)
Lemma contains_spec q s :
  contains q s = true ↔ ∃ s1 s2, s = (s1 +:+ q +:+ s2)%string.
Proof.
  induction s as [|c s IH].
  - change (contains q "") with (String.prefix q "" || false).
    rewrite orb_true_iff, prefix_split. split.
    + intros [[s2 Hs]|[=]]. by exists ""%string, s2.
    + intros (s1 & s2 & Hs). left. destruct s1; [by exists s2|done].
  - rewrite contains_cons, orb_true_iff, prefix_split, IH. split.
    + intros [[s2 Hs]|(s1 & s2 & ->)]; [by exists ""%string, s2|].
      by exists (String c s1), s2.
    + intros (s1 & s2 & Hs). destruct s1 as [|c1 s1].
      * left. by exists s2.
      * right. injection Hs as -> ->. by exists s1, s2.
Qed.

Lemma StronglySorted_sublist {A} (R : A → A → Prop) l1 l2 :
  l1 `sublist_of` l2 → StronglySorted R l2 → StronglySorted R l1.
Proof.
  induction 1 as [|x l1 l2 Hsub IH|x l1 l2 Hsub IH]; [done|..].
  - intros [Hall Hs]%StronglySorted_cons. apply StronglySorted_cons.
    split; [|by apply IH]. rewrite Forall_forall in Hall |- *.
    intros y Hy. apply Hall. by eapply elem_of_sublist.
  - intros [_ Hs]%StronglySorted_cons. by apply IH.
Qed.

(** X14. [update_list] shows the first 40 of the values that contain the
    lowered text of the entry (of all values when that text is empty), in
    the ascending order that [__init__] gave the values.  The label
    "Showing top 40 results" is set exactly when there are at least 40
    such values, so whenever a value is left out the label is set; it is
    also set when there are exactly 40 and none is left out. *)
Theorem update_list_shows lower values search :
  let cands := candidates lower (scroll_values values) search in
  let '(info, shown) := update_list lower (scroll_values values) search in
  shown = take 40 cands ∧
  StronglySorted String.le shown ∧
  (lower search ≠ ""%string →
   ∀ v, v ∈ shown → ∃ s1 s2, lower v = (s1 +:+ lower search +:+ s2)%string) ∧
  (info = "Showing top 40 results"%string ↔ (40 ≤ length cands)%nat) ∧
  (info = ""%string → shown = cands).
Proof.
  unfold update_list, candidates. simpl.
  set (vals := scroll_values values).
  assert (StronglySorted String.le vals) as Hsorted.
  { apply (StronglySorted_merge_sort _). }
  destruct (decide (lower search ≠ ""%string)) as [Hq|Hq].
  - set (cands := filter _ vals).
    assert (cands `sublist_of` vals) as Hsub by apply sublist_filter.
    split; [done|]. split.
    { eapply StronglySorted_sublist; [|exact Hsorted].
      etrans; [apply sublist_take|done]. }
    split.
    { intros _ v Hv. apply contains_spec.
      assert (v ∈ cands) as [Hc _]%list_elem_of_filter; [|done].
      eapply elem_of_sublist; [exact Hv|apply sublist_take]. }
    case_decide as Hlen.
    + split; [split; [lia|done]|]. done.
    + split; [split; [done|lia]|]. intros _. apply take_ge. lia.
  - rewrite take_take. simpl.
    split; [done|]. split.
    { eapply StronglySorted_sublist; [apply sublist_take|exact Hsorted]. }
    split; [done|].
    rewrite length_take. case_decide as Hlen.
    + split; [split; [lia|done]|]. done.
    + split; [split; [done|lia]|]. intros _. apply take_ge. lia.
Qed.

(** ** The further properties at concrete queries *)

Lemma add_route_other_aircraft g dep dst ac ac' dist :
  ac' ≠ ac → same_for ac (add_route g dep dst ac' dist) g.
Proof.
  intros Hne k. unfold edges_of. rewrite add_route_lookup.
  case_decide as Hk; [|done]. subst k. simpl.
  rewrite filter_app, filter_cons, decide_False by done.
  by rewrite filter_nil, app_nil_r.
Qed.

Lemma least_distance_sound_witness :
  least_distance_returns negative_graph "A" "D" "X" (Some (5, ["A"; "D"]%string)) ∧
  ∃ es, route negative_graph "X" "A" "D" ["A"; "D"]%string es ∧ 5 = total_distance es.
Proof.
  assert (least_distance_returns negative_graph "A" "D" "X" (Some (5, ["A"; "D"]%string)))
    as Hr.
  { exists 2%nat, negative_graph. vm_compute. reflexivity. }
  split; [exact Hr|].
  exact (least_distance_sound negative_graph "A" "D" "X" 5 ["A"; "D"]%string Hr).
Defined.

Lemma least_distance_route_fewest_legs_route_witness :
  least_distance_returns detour_graph "A" "C" "X" (Some (150, ["A"; "B"; "C"]%string)) ∧
  ∃ p', fewest_legs_returns detour_graph "A" "C" "X" (Some p') ∧ (length p' ≤ 3)%nat.
Proof.
  assert (least_distance_returns detour_graph "A" "C" "X"
            (Some (150, ["A"; "B"; "C"]%string))) as Hr.
  { exists 4%nat, detour_graph. vm_compute. reflexivity. }
  split; [exact Hr|].
  exact (proj1 (least_distance_route_fewest_legs_route detour_graph "A" "C" "X")
               150 ["A"; "B"; "C"]%string Hr).
Defined.

Lemma fewest_legs_route_least_distance_route_witness :
  distances_from 0 detour_graph "X" ∧
  fewest_legs_returns detour_graph "A" "C" "X" (Some ["A"; "C"]%string) ∧
  ∃ D p, least_distance_returns detour_graph "A" "C" "X" (Some (D, p)) ∧
    (2 ≤ length p)%nat ∧
    ∀ es', route detour_graph "X" "A" "C" ["A"; "C"]%string es' → D ≤ total_distance es'.
Proof.
  assert (distances_from 0 detour_graph "X") as Hd.
  { apply distances_fromb_true. vm_compute. reflexivity. }
  assert (fewest_legs_returns detour_graph "A" "C" "X" (Some ["A"; "C"]%string)) as Hr.
  { exists 3%nat, detour_graph. vm_compute. reflexivity. }
  split; [exact Hd|]. split; [exact Hr|].
  exact (fewest_legs_route_least_distance_route detour_graph "A" "C" "X"
           ["A"; "C"]%string Hd Hr).
Defined.

Lemma fewest_legs_no_repeat_witness :
  fewest_legs_returns detour_graph "A" "C" "X" (Some ["A"; "C"]%string) ∧
  NoDup ["A"; "C"]%string.
Proof.
  assert (fewest_legs_returns detour_graph "A" "C" "X" (Some ["A"; "C"]%string)) as Hr.
  { exists 3%nat, detour_graph. vm_compute. reflexivity. }
  split; [exact Hr|].
  exact (fewest_legs_no_repeat detour_graph "A" "C" "X" ["A"; "C"]%string Hr).
Defined.

Lemma least_distance_no_repeat_witness :
  distances_from 0 detour_graph "X" ∧
  least_distance_returns detour_graph "A" "C" "X" (Some (150, ["A"; "B"; "C"]%string)) ∧
  NoDup ["A"; "B"; "C"]%string.
Proof.
  assert (distances_from 0 detour_graph "X") as Hd.
  { apply distances_fromb_true. vm_compute. reflexivity. }
  assert (least_distance_returns detour_graph "A" "C" "X"
            (Some (150, ["A"; "B"; "C"]%string))) as Hr.
  { exists 4%nat, detour_graph. vm_compute. reflexivity. }
  split; [exact Hd|]. split; [exact Hr|].
  exact (least_distance_no_repeat detour_graph "A" "C" "X" 150
           ["A"; "B"; "C"]%string Hd Hr).
Defined.


Lemma compute_routes_legs_witness :
  compute_routes 3 parallel_graph "X" "A" "B"
  = Some (Found (Some (1, ["A"; "B"]%string))
                (Some (50, 1, [("A"%string, "B"%string, 100)])),
          parallel_graph) ∧
  distances_from 0 parallel_graph "X" ∧
  50 ≤ leg_total [("A"%string, "B"%string, 100)].
Proof.
  assert (compute_routes 3 parallel_graph "X" "A" "B"
          = Some (Found (Some (1, ["A"; "B"]%string))
                        (Some (50, 1, [("A"%string, "B"%string, 100)])),
                  parallel_graph)) as Hrun by (vm_compute; reflexivity).
  assert (distances_from 0 parallel_graph "X") as Hd.
  { apply distances_fromb_true. vm_compute. reflexivity. }
  split; [exact Hrun|]. split; [exact Hd|].
  exact (proj1 (proj2 (proj2
           (compute_routes_legs 3 parallel_graph "X" "A" "B" _ _ _ _ _ Hrun))) Hd).
Defined.

Lemma other_aircraft_invisible_witness :
  same_for "X" tie_graph_other tie_graph ∧
  fst <$> fewest_legs 3 tie_graph_other "A" "D" "X"
    = fst <$> fewest_legs 3 tie_graph "A" "D" "X" ∧
  fst <$> least_distance 3 tie_graph_other "A" "D" "X"
    = fst <$> least_distance 3 tie_graph "A" "D" "X".
Proof.
  assert (same_for "X" tie_graph_other tie_graph) as Hs.
  { apply add_route_other_aircraft. done. }
  split; [exact Hs|].
  exact (other_aircraft_invisible "X" tie_graph_other tie_graph "A" "D" 3 Hs).
Defined.

Lemma searches_add_reached_keys_witness :
  fewest_legs 3 tie_graph "B" "A" "X" = Some (None, <["D"%string := []]> tie_graph) ∧
  tie_graph !! "D"%string = None ∧
  is_Some ((<["D"%string := []]> tie_graph : Graph) !! "D"%string) ∧
  "D"%string ≠ "A"%string ∧ ∃ p es, route tie_graph "X" "B" "D" p es.
Proof.
  assert (fewest_legs 3 tie_graph "B" "A" "X"
          = Some (None, <["D"%string := []]> tie_graph)) as Hrun
    by (vm_compute; reflexivity).
  assert (tie_graph !! "D"%string = None) as Hk by (vm_compute; reflexivity).
  assert (is_Some ((<["D"%string := []]> tie_graph : Graph) !! "D"%string)) as Hk'.
  { exists []. vm_compute. reflexivity. }
  split; [exact Hrun|]. split; [exact Hk|]. split; [exact Hk'|].
  exact (searches_add_reached_keys tie_graph "B" "A" "X" 3 _ "D"
           (or_introl (ex_intro _ None Hrun)) Hk Hk').
Defined.

Lemma loaded_searches_terminate_witness :
  (∀ r, r ∈ [mkRoute "A" "B" "X" 100; mkRoute "A" "B" "X" 100; mkRoute "B" "A" "X" 0] →
        0 ≤ Distance r) ∧
  ∃ r, least_distance 5
         (graph (load_routes init
                   [mkRoute "A" "B" "X" 100; mkRoute "A" "B" "X" 100;
                    mkRoute "B" "A" "X" 0])) "A" "C" "X" = Some r.
Proof.
  assert (∀ r, r ∈ [mkRoute "A" "B" "X" 100; mkRoute "A" "B" "X" 100;
                    mkRoute "B" "A" "X" 0] → 0 ≤ Distance r) as Hnn.
  { intros r Hr. repeat (apply elem_of_cons in Hr as [->|Hr]; [simpl; lia|]).
    by apply elem_of_nil in Hr. }
  split; [exact Hnn|].
  exact (proj2 (loaded_searches_terminate
                  [mkRoute "A" "B" "X" 100; mkRoute "A" "B" "X" 100;
                   mkRoute "B" "A" "X" 0] "A" "C" "X") Hnn).
Defined.

(** ** One more route in the graph *)

Lemma path_edges_mono adj adj' ac p es :
  (∀ k edge, edge ∈ adj k → edge ∈ adj' k) →
  path_edges adj ac p es → path_edges adj' ac p es.
Proof.
  intros Hsub. induction 1 as [|x y edge p es [Hin Hac] Hd Hp IH]; [constructor|].
  eapply path_edges_cons; [|done|done]. split; [by apply Hsub|done].
Qed.

Lemma add_route_edges g dep dst a dist k edge :
  edge ∈ edges_of g k → edge ∈ edges_of (add_route g dep dst a dist) k.
Proof.
  intros Hin. unfold edges_of at 1. rewrite add_route_lookup.
  case_decide as Hk; [|done]. subst k. simpl. apply elem_of_app. by left.
Qed.

Lemma add_route_route g dep dst a dist ac s e p es :
  route g ac s e p es → route (add_route g dep dst a dist) ac s e p es.
Proof.
  intros (Hh & Hl & Hp). split; [done|]. split; [done|].
  eapply path_edges_mono; [|done]. intros k edge. apply add_route_edges.
Qed.

(** X15. Adding a route to the graph never makes the answers worse: if
    [fewest_legs] returned a path before, it returns one after with no
    more airports; and if [least_distance] returned a distance before and
    the graph with the new route has no negative distance, it returns one
    after that is not larger. *)
Theorem add_route_improves g dep dst a dist s e ac :
  (∀ p, fewest_legs_returns g s e ac (Some p) →
     ∃ p', fewest_legs_returns (add_route g dep dst a dist) s e ac (Some p') ∧
           (length p' ≤ length p)%nat) ∧
  (distances_from 0 (add_route g dep dst a dist) ac →
   ∀ D p, least_distance_returns g s e ac (Some (D, p)) →
     ∃ D' p', least_distance_returns (add_route g dep dst a dist) s e ac (Some (D', p')) ∧
              D' ≤ D).
Proof.
  split.
  - intros p (es & Hr & _)%fewest_legs_min.
    apply (add_route_route _ dep dst a dist) in Hr as Hr'.
    destruct (fewest_legs_terminates (add_route g dep dst a dist) s e ac)
      as [[[p'|] g'] Hrun].
    + assert (fewest_legs_returns (add_route g dep dst a dist) s e ac (Some p'))
        as Hret by (by eexists _, _).
      exists p'. split; [done|].
      destruct (fewest_legs_min _ _ _ _ _ Hret) as (es' & Hr'' & Hmin).
      apply Hmin in Hr' as Hle. apply route_length in Hr, Hr''. lia.
    + destruct (fewest_legs_None_no_route (add_route g dep dst a dist) s e ac);
        [by eexists _, _|by eauto].
  - intros Hdist D p (es & Hr & ->)%least_distance_Some_route.
    apply (add_route_route _ dep dst a dist) in Hr as Hr'.
    destruct (least_distance_terminates (add_route g dep dst a dist) s e ac Hdist)
      as [[[[D' p']|] g'] Hrun].
    + assert (least_distance_returns (add_route g dep dst a dist) s e ac (Some (D', p')))
        as Hret by (by eexists _, _).
      exists D', p'. split; [done|].
      destruct (least_distance_min _ _ _ _ _ _ Hdist Hret) as (es' & _ & _ & Hopt).
      destruct (Hopt _ _ Hr') as [Hle _]. exact Hle.
    + destruct (least_distance_None_no_route (add_route g dep dst a dist) s e ac);
        [by eexists _, _|by eauto].
Qed.

(** X16. What [compute_routes] shows is consistent: when it shows a
    least-distance route it shows a fewest-legs route as well, and the
    number of legs shown for the fewest-legs route is not negative and
    not larger than the number shown for the least-distance route. *)
Theorem compute_routes_consistent fuel g ac s e fewest least g' :
  compute_routes fuel g ac s e = Some (Found fewest least, g') →
  (is_Some least → is_Some fewest) ∧
  ∀ n1 p1 D n2 lines,
    fewest = Some (n1, p1) → least = Some (D, n2, lines) → 0 ≤ n1 ≤ n2.
Proof.
  unfold compute_routes. case_decide as Hempty; [done|].
  destruct (fewest_legs fuel g s e ac) as [[fl g1]|] eqn:Hfl; [|done].
  destruct (least_distance fuel g1 s e ac) as [[ld g2]|] eqn:Hld; [|done].
  pose proof (fewest_legs_grown _ _ _ _ _ _ _ Hfl) as Hg1.
  assert (fewest_legs_returns g s e ac fl) as Hretf by (by exists fuel, g1).
  assert (least_distance_returns g s e ac ld) as Hret.
  { pose proof (least_distance_reads g1 g s e ac fuel
                  (fun k => graph_grown_edges_of _ _ k Hg1)) as Hread.
    rewrite Hld in Hread. simpl in Hread.
    destruct (least_distance fuel g s e ac) as [[ld' g'']|] eqn:Hld'; [|done].
    injection Hread as ->. by exists fuel, g''. }
  destruct ld as [[D p]|].
  - destruct (least_distance_Some_route _ _ _ _ _ _ Hret) as (es & Hr & _).
    destruct fl as [p1|].
    + destruct (fewest_legs_min _ _ _ _ _ Hretf) as (es1 & Hr1 & Hmin).
      apply Hmin in Hr as Hle. apply route_length in Hr, Hr1.
      destruct p1 as [|x p1]; [done|].
      destruct (leg_lines g2 ac p) as [lines g3].
      intros [= <- <- <-]. split; [by eauto|].
      intros n1 p1' D' n2 lines' [= <- <-] [= <- <- <-]. simpl in *. lia.
    + destruct (fewest_legs_None_no_route g s e ac Hretf). eauto.
  - intros [= <- <- <-]. split; [by intros [? [=]]|]. by intros ? ? ? ? ? _ [=].
Qed.

Lemma compute_routes_consistent_witness :
  compute_routes 4 detour_graph "X" "A" "C"
  = Some (Found (Some (1, ["A"; "C"]%string))
                (Some (150, 2, [("A"%string, "B"%string, 100);
                                ("B"%string, "C"%string, 50)])),
          detour_graph) ∧
  0 ≤ 1 ≤ 2.
Proof.
  assert (compute_routes 4 detour_graph "X" "A" "C"
          = Some (Found (Some (1, ["A"; "C"]%string))
                        (Some (150, 2, [("A"%string, "B"%string, 100);
                                        ("B"%string, "C"%string, 50)])),
                  detour_graph)) as Hrun by (vm_compute; reflexivity).
  split; [exact Hrun|].
  exact (proj2 (compute_routes_consistent 4 detour_graph "X" "A" "C" _ _ _ Hrun)
               1 _ 150 2 _ eq_refl eq_refl).
Defined.

Lemma add_route_improves_witness :
  fewest_legs_returns detour_graph "A" "C" "X" (Some ["A"; "C"]%string) ∧
  ∃ p', fewest_legs_returns (add_route detour_graph "C" "A" "X" 7) "A" "C" "X" (Some p') ∧
        (length p' ≤ 2)%nat.
Proof.
  assert (fewest_legs_returns detour_graph "A" "C" "X" (Some ["A"; "C"]%string)) as Hr.
  { exists 3%nat, detour_graph. vm_compute. reflexivity. }
  split; [exact Hr|].
  exact (proj1 (add_route_improves detour_graph "C" "A" "X" 7 "A" "C" "X")
               ["A"; "C"]%string Hr).
Defined.
